(** * The box image builder: verb wrapper, run protocol and DSL verbs

    A shallow embedding of [builder/builder.go] and [builder/verbs.go].
    The script interpreter (go-mruby), the container runtime and the
    file system are external collaborators: they appear as records of
    operations over an abstract state, and every theorem quantifies over
    them.  Go's [error] values are kept by their message; where the code
    compares an error with a sentinel, the sentinel is told apart.

    The two files are of different versions of the package: the
    [Builder] of [builder.go] and the verbs of [verbs.go] do not fit
    together, so each file has a module of its own ([Core], [Verbs]).
    The [from] that goes through the pull registry of [builder.go] is in
    neither; the module [PullCoordinator] follows the specification. *)

From Stdlib Require Import NArith ZArith Ascii String.
From stdpp Require Import base strings list gmap pretty.

Local Open Scope string_scope.

(** ** Values exchanged with the interpreter *)

#[local] Set Warnings "-register-all".

(** An [mruby.MrbValue] as the builder observes it: the kind of object
    and the rendering [String()] returns for it.  For kinds whose
    rendering is computed by the interpreter ([inspect]) the rendering is
    carried along. *)
Inductive MrbValue : Type :=
| MrbNil
| MrbString (s : string)
| MrbHash (inspect : string) (entries : list (MrbValue * MrbValue))
| MrbProc (inspect : string) (id : nat)
| MrbException (msg : string)
| MrbOther (to_s : string).

(** The [String()] method of an [MrbValue]. *)
Definition mrb_String (v : MrbValue) : string :=
  match v with
  | MrbNil => ""
  | MrbString s => s
  | MrbHash i _ => i
  | MrbProc i _ => i
  | MrbException m => m
  | MrbOther s => s
  end.

(** What a verb hands back to the interpreter: [(mruby.Value, mruby.Value)],
    a value or nil, and an exception or nil. *)
Definition verbResult : Type := option MrbValue * option MrbValue.

(** Modelled from the spec: [createException] is called by the sources but
    declared elsewhere; verb handlers "return (value, nil) or
    (nil, exception_value)", the exception carrying the message. *)
Definition createException (msg : string) : MrbValue := MrbException msg.

(** How a Go call can end: by returning, by a run-time panic, or, when a
    foreign (C) function is applied outside its contract, in no defined
    way. *)
Inductive outcome (A : Type) : Type :=
| Returns (a : A)
| Panics (msg : string)
| Undefined.
Arguments Returns {A} a.
Arguments Panics {A} msg.
Arguments Undefined {A}.

(** [mruby.ArgSpec] as the jump tables build it. *)
Inductive ArgSpec : Type :=
| ArgsReq (n : nat)
| ArgsAny
| ArgsBlock
| ArgsOr (a b : ArgSpec).

(** ** [strings.Join] and [base64.StdEncoding] *)

(** [strings.Join(elems, sep)]: the first element, then each further
    element preceded by the separator. *)
Definition Join (elems : list string) (sep : string) : string :=
  match elems with
  | [] => ""
  | e :: rest => fold_left (fun acc s => acc +:+ sep +:+ s) rest e
  end.

Module base64.

(** The standard alphabet of RFC 4648. *)
Definition encodeStd : string :=
  "ABCDEFGHIJKLMNOPQRSTUVWXYZabcdefghijklmnopqrstuvwxyz0123456789+/".

Definition padChar : ascii := "="%char.

(** [enc.encode[i]] *)
Definition encode (i : N) : ascii :=
  match String.get (N.to_nat i) encodeStd with
  | Some c => c
  | None => padChar
  end.

(** [Encoding.Encode]: three source bytes become four characters;
    a remainder of one or two bytes is padded. *)
Fixpoint Encode (src : list N) : list ascii :=
  match src with
  | [] => []
  | [a] =>
      let val := N.shiftl a 16 in
      [encode (N.land (N.shiftr val 18) 63);
       encode (N.land (N.shiftr val 12) 63); padChar; padChar]
  | [a; b] =>
      let val := N.lor (N.shiftl a 16) (N.shiftl b 8) in
      [encode (N.land (N.shiftr val 18) 63);
       encode (N.land (N.shiftr val 12) 63);
       encode (N.land (N.shiftr val 6) 63); padChar]
  | a :: b :: c :: rest =>
      let val := N.lor (N.lor (N.shiftl a 16) (N.shiftl b 8)) c in
      encode (N.land (N.shiftr val 18) 63)
      :: encode (N.land (N.shiftr val 12) 63)
      :: encode (N.land (N.shiftr val 6) 63)
      :: encode (N.land val 63)
      :: Encode rest
  end.

(** The conversion of a string to its byte slice. *)
Definition bytes (s : string) : list N :=
  map N_of_ascii (list_ascii_of_string s).

(** [StdEncoding.EncodeToString([]byte(s))] *)
Definition EncodeToString (s : string) : string :=
  string_of_list_ascii (Encode (bytes s)).

End base64.

(** ** The builder core ([builder.go]) *)

Module Core.

(** A Go channel of [struct{}] used as a completion signal. *)
Inductive chan : Type := ChanNil | ChanOpen | ChanClosed.

(** The built-in [close]: a nil or an already closed channel panics. *)
Definition close (c : chan) : outcome chan :=
  match c with
  | ChanOpen => Returns ChanClosed
  | ChanClosed => Panics "close of closed channel"
  | ChanNil => Panics "close of nil channel"
  end.

(** [context.Context], by what the wrapper reads of it: whether [Done()]
    is ready, and the value of [Err()]. *)
Record Context : Type := {
  ctx_Done : bool;
  ctx_Err : option string
}.

(** [global.Global]; the logger is observed through the trace. *)
Record Global : Type := {
  OmitFuncs : list string;
  TTY : bool
}.

Record BuildConfig : Type := {
  Globals : Global;
  Context_ : Context;
  Runner : chan;
  FileName : string
}.

Record BuildResult : Type := {
  res_FileName : string;
  Value : option MrbValue;
  Err : option string
}.

(** The part of a [Builder] that script code reaches while it is being
    evaluated: the executor ([exec], of abstract state [S], holding the
    container configuration, the image chain and the cache) and the
    registered [after] hook.  The interpreter's own heap is part of [S]. *)
Record Heap (S : Type) : Type := {
  exec : S;
  afterFunc : option MrbValue
}.
Arguments exec {S} _.
Arguments afterFunc {S} _.

Record Builder (S : Type) : Type := {
  result : BuildResult;
  config : BuildConfig;
  heap : Heap S
}.
Arguments result {S} _.
Arguments config {S} _.
Arguments heap {S} _.

(** What the builder does to its collaborators, in order of occurrence
    (newest first in a trace). *)
Inductive Event : Type :=
| EvBuildStep (name args : string)
| EvPrintln (s : string)
| EvCheckCache (cacheKey : string)
| EvVerbFunc (name cacheKey : string)
| EvReadFile (name : string)
| EvLoadString (script : string)
| EvRunWithContext
| EvMakeImage
| EvYield (block : option MrbValue)
| EvClose.

(** A builder together with the record of what it has done. *)
Record World (S : Type) : Type := {
  bld : Builder S;
  trace : list Event
}.
Arguments bld {S} _.
Arguments trace {S} _.

(** [executor.Executor], by the operations [builder.go] calls. *)
Record Executor (S : Type) : Type := {
  (** [Image().CheckCache(key)] *)
  CheckCache : string -> S -> (bool * option string) * S;
  (** [Image().ImageID()] *)
  ImageID : S -> string;
  (** [Image().Tag(name)] *)
  Tag : string -> S -> option string * S;
  (** [Layers().MakeImage(Config())]; the returned id is dropped. *)
  MakeImage : S -> option string * S;
  (** [json.MarshalIndent(Config(), "", "  ")] *)
  ConfigJSON : S -> string
}.
Arguments CheckCache {S} _.
Arguments ImageID {S} _.
Arguments Tag {S} _.
Arguments MakeImage {S} _.
Arguments ConfigJSON {S} _.

(** [mruby.Mrb], by the operations [builder.go] calls.  Evaluation runs
    script code, which calls back into the verbs: it acts on the [Heap]. *)
Record Mrb (S : Type) : Type := {
  (** [LoadString(script)]; the value is dropped. *)
  LoadString : string -> Heap S -> option string * Heap S;
  (** [RunWithContext(val, TopSelf(), stackKeep)] *)
  RunWithContext :
    MrbValue -> Z -> Heap S -> (Z * option MrbValue * option string) * Heap S;
  (** [Yield(block)]; the value is dropped. *)
  Yield : option MrbValue -> Heap S -> option string * Heap S
}.
Arguments LoadString {S} _.
Arguments RunWithContext {S} _.
Arguments Yield {S} _.

(** [verbDefinition]: the handler of a committing verb and its arity.
    The type is declared outside the given sources; these are the two
    fields [builder.go] reads. *)
Record verbDefinition (S : Type) : Type := {
  verbFunc : Builder S -> string -> list MrbValue -> verbResult * Builder S;
  argSpec : ArgSpec
}.
Arguments verbFunc {S} _.
Arguments argSpec {S} _.

(** Modelled from the spec: [extractStringArgs] is called by [wrapVerbFunc]
    and declared elsewhere; "convert each script value to its canonical
    string form". *)
Definition extractStringArgs (args : list MrbValue) : list string :=
  map mrb_String args.

Section Operations.
Context {S : Type}.
Variable E : Executor S.
Variable M : Mrb S.
(** [os.Getenv] *)
Variable Getenv : string -> string.
(** [ioutil.ReadFile]: the contents, or an error. *)
Variable ReadFile : string -> string + string.

Definition set_exec (s : S) (b : Builder S) : Builder S :=
  {| result := result b; config := config b;
     heap := {| exec := s; afterFunc := afterFunc (heap b) |} |}.

Definition set_heap (h : Heap S) (b : Builder S) : Builder S :=
  {| result := result b; config := config b; heap := h |}.

Definition set_result (r : BuildResult) (b : Builder S) : Builder S :=
  {| result := r; config := config b; heap := heap b |}.

Definition set_Runner (c : chan) (b : Builder S) : Builder S :=
  {| result := result b;
     config := {| Globals := Globals (config b);
                  Context_ := Context_ (config b);
                  Runner := c;
                  FileName := FileName (config b) |};
     heap := heap b |}.

Definition emit (e : Event) (w : World S) : World S :=
  {| bld := bld w; trace := e :: trace w |}.

Definition with_bld (b : Builder S) (w : World S) : World S :=
  {| bld := b; trace := trace w |}.

(** [func (b *Builder) keep(name string) bool] *)
Definition keep (b : Builder S) (name : string) : bool :=
  negb (existsb (String.eqb name) (OmitFuncs (Globals (config b)))).

(** [func (b *Builder) ImageID() string] *)
Definition Builder_ImageID (b : Builder S) : string :=
  ImageID E (exec (heap b)).

(** [func (b *Builder) wrapVerbFunc(name, vd) mruby.Func], applied to the
    arguments [m.GetArgs()] of one call. *)
Definition wrapVerbFunc (name : string) (vd : verbDefinition S)
    (args : list MrbValue) (w : World S) : verbResult * World S :=
  let ctx := Context_ (config (bld w)) in
  if ctx_Done ctx then
    match ctx_Err ctx with
    | Some e => ((None, Some (createException e)), w)
    | None => ((None, None), w)
    end
  else
    let strArgs := extractStringArgs args in
    let cacheKey := Join (name :: strArgs) ", " in
    let cacheKey := base64.EncodeToString cacheKey in
    let w := emit (EvBuildStep name (Join strArgs ", ")) w in
    let w :=
      if String.eqb (Getenv "BOX_DEBUG") "" then w
      else emit (EvPrintln (ConfigJSON E (exec (heap (bld w))))) w in
    let '((cached, err), s) := CheckCache E cacheKey (exec (heap (bld w))) in
    let w := emit (EvCheckCache cacheKey) (with_bld (set_exec s (bld w)) w) in
    match err with
    | Some e => ((None, Some (createException e)), w)
    | None =>
        if negb cached || String.eqb name "debug" then
          let w := emit (EvVerbFunc name cacheKey) w in
          let '(r, b) := verbFunc vd (bld w) cacheKey args in
          (r, with_bld b w)
        else ((None, None), w)
    end.

(** [BuildResult{FileName: ..., Value: ..., Err: ...}] *)
Definition mkResult (fn : string) (v : option MrbValue) (e : option string)
    : BuildResult :=
  {| res_FileName := fn; Value := v; Err := e |}.

(** [b.result.Err = err] *)
Definition result_set_Err (e : option string) (b : Builder S) : Builder S :=
  set_result (mkResult (res_FileName (result b)) (Value (result b)) e) b.

(** [b.result.Value = v] *)
Definition result_set_Value (v : option MrbValue) (b : Builder S) : Builder S :=
  set_result (mkResult (res_FileName (result b)) v (Err (result b))) b.

(** [mruby.String(b.ImageID()).MrbValue(b.mrb)] *)
Definition ImageID_value (b : Builder S) : MrbValue :=
  MrbString (Builder_ImageID b).

(** [b.exec.Layers().MakeImage(b.exec.Config())] *)
Definition call_MakeImage (w : World S) : option string * World S :=
  let '(err, s) := MakeImage E (exec (heap (bld w))) in
  (err, emit EvMakeImage (with_bld (set_exec s (bld w)) w)).

(** [b.mrb.Yield(b.afterFunc)] *)
Definition call_Yield (w : World S) : option string * World S :=
  let f := afterFunc (heap (bld w)) in
  let '(err, h) := Yield M f (heap (bld w)) in
  (err, emit (EvYield f) (with_bld (set_heap h (bld w)) w)).

(** [func (b *Builder) RunCode(val, stackKeep) (BuildResult, int)] *)
Definition RunCode (val : MrbValue) (stackKeep : Z) (w : World S)
    : (BuildResult * Z) * World S :=
  let fn := FileName (config (bld w)) in
  let '((keep, res, err), h) := RunWithContext M val stackKeep (heap (bld w)) in
  let w := emit EvRunWithContext (with_bld (set_heap h (bld w)) w) in
  let w := with_bld (set_result (mkResult fn res err) (bld w)) w in
  match err with
  | Some _ => ((result (bld w), keep), w)
  | None =>
      match res with
      | Some _ =>
          let w := with_bld (set_result (mkResult fn res None) (bld w)) w in
          ((result (bld w), keep), w)
      | None =>
          let '(merr, w) := call_MakeImage w in
          match merr with
          | Some e =>
              let w := with_bld (result_set_Value None (bld w)) w in
              let w := with_bld (result_set_Err (Some e) (bld w)) w in
              ((result (bld w), keep), w)
          | None =>
              let '(yerr, w) := call_Yield w in
              match yerr with
              | Some e =>
                  let w := with_bld (result_set_Err (Some e) (bld w)) w in
                  ((result (bld w), keep), w)
              | None =>
                  let w :=
                    with_bld
                      (result_set_Value (Some (ImageID_value (bld w))) (bld w))
                      w in
                  let w := with_bld (result_set_Err None (bld w)) w in
                  ((result (bld w), keep), w)
              end
          end
      end
  end.

(** [func (b *Builder) RunScript(script string) BuildResult] *)
Definition RunScript (script : string) (w : World S) : BuildResult * World S :=
  let fn := FileName (config (bld w)) in
  let w := with_bld (set_result (mkResult fn None None) (bld w)) w in
  let '(lerr, h) := LoadString M script (heap (bld w)) in
  let w := emit (EvLoadString script) (with_bld (set_heap h (bld w)) w) in
  match lerr with
  | Some e =>
      let w := with_bld (result_set_Err (Some e) (bld w)) w in
      (result (bld w), w)
  | None =>
      let '(merr, w) := call_MakeImage w in
      match merr with
      | Some e =>
          let w := with_bld (result_set_Err (Some e) (bld w)) w in
          (result (bld w), w)
      | None =>
          let '(yerr, w) :=
            match afterFunc (heap (bld w)) with
            | Some _ => call_Yield w
            | None => (None, w)
            end in
          match yerr with
          | Some e =>
              let w := with_bld (result_set_Err (Some e) (bld w)) w in
              (result (bld w), w)
          | None =>
              let w :=
                with_bld
                  (result_set_Value (Some (ImageID_value (bld w))) (bld w)) w in
              (result (bld w), w)
          end
      end
  end.

(** The deferred [close(b.config.Runner)]: it runs when the body of [Run]
    has produced its result, whichever return statement was taken. *)
Definition deferred_close {A : Type} (r : A) (w : World S)
    : outcome A * World S :=
  let w := emit EvClose w in
  match close (Runner (config (bld w))) with
  | Returns c => (Returns r, with_bld (set_Runner c (bld w)) w)
  | Panics msg => (Panics msg, w)
  | Undefined => (Undefined, w)
  end.

(** [func (b *Builder) Run() BuildResult] *)
Definition Run (w : World S) : outcome BuildResult * World S :=
  let fn := FileName (config (bld w)) in
  let w := emit (EvReadFile fn) w in
  let '(r, w) :=
    match ReadFile fn with
    | inr e => (mkResult fn None (Some e), w)
    | inl script => RunScript script w
    end in
  deferred_close r w.

(** [func (b *Builder) Result() BuildResult] *)
Definition Result (w : World S) : BuildResult := result (bld w).

(** [func (b *Builder) Wait() BuildResult]: the receive returns once the
    channel is closed; on an open or nil channel it blocks. *)
Definition Wait (w : World S) : option BuildResult :=
  match Runner (config (bld w)) with
  | ChanClosed => Some (result (bld w))
  | _ => None
  end.

(** *** The post-evaluation protocol, in the words of the specification

    1. the executor's layer manager finalizes the current configuration
       into an image; 2. if an [after] hook has been registered, it is
       invoked; 3. [value] is set to the current [ImageID].  An error at
       any step aborts and is returned as the result's error. *)

Definition protocol_finalize (w : World S) : option string * World S :=
  let '(err, s) := MakeImage E (exec (heap (bld w))) in
  (err, {| bld := set_exec s (bld w); trace := EvMakeImage :: trace w |}).

Definition protocol_after (w : World S) : option string * World S :=
  match afterFunc (heap (bld w)) with
  | None => (None, w)
  | Some f =>
      let '(err, h) := Yield M (Some f) (heap (bld w)) in
      (err, {| bld := set_heap h (bld w);
               trace := EvYield (Some f) :: trace w |})
  end.

Definition protocol_abort (e : string) (w : World S) : BuildResult * World S :=
  let r := mkResult (res_FileName (result (bld w))) None (Some e) in
  (r, with_bld (set_result r (bld w)) w).

Definition post_evaluation (w : World S) : BuildResult * World S :=
  match protocol_finalize w with
  | (Some e, w1) => protocol_abort e w1
  | (None, w1) =>
      match protocol_after w1 with
      | (Some e, w2) => protocol_abort e w2
      | (None, w2) =>
          let r := mkResult (res_FileName (result (bld w2)))
                     (Some (MrbString (ImageID E (exec (heap (bld w2))))))
                     None in
          (r, with_bld (set_result r (bld w2)) w2)
      end
  end.

(** The builder once [LoadString] has returned with heap [h]. *)
Definition after_LoadString (script : string) (h : Heap S) (w : World S)
    : World S :=
  {| bld := set_heap h
              (set_result (mkResult (FileName (config (bld w))) None None)
                 (bld w));
     trace := EvLoadString script :: trace w |}.

(** The builder once [RunWithContext] has returned [res], [err] and heap
    [h]. *)
Definition after_RunWithContext (res : option MrbValue) (err : option string)
    (h : Heap S) (w : World S) : World S :=
  {| bld := set_result (mkResult (FileName (config (bld w))) res err)
              (set_heap h (bld w));
     trace := EvRunWithContext :: trace w |}.

(** The number of [close] operations recorded in a trace. *)
Definition closes (t : list Event) : nat :=
  length (List.filter (fun e => match e with EvClose => true | _ => false end) t).

End Operations.

(** *** The cache fingerprint, in the words of the specification:
    [base64(join(", ", [name, str a1, ..., str an]))]. *)
Definition fingerprint (name : string) (args : list MrbValue) : string :=
  base64.EncodeToString (Join (name :: map mrb_String args) ", ").

(** The number of handler invocations recorded in a trace. *)
Definition handler_calls (t : list Event) : nat :=
  length (List.filter
            (fun e => match e with EvVerbFunc _ _ => true | _ => false end) t).

(** *** Collaborators for the examples *)

(** An executor whose state is the list of fingerprints its cache knows;
    its current image is fixed. *)
Definition demoExecutor : Executor (list string) :=
  {| CheckCache := fun k s => ((existsb (String.eqb k) s, None), s);
     ImageID := fun _ => "sha256:demo";
     Tag := fun _ s => (None, s);
     MakeImage := fun s => (None, s);
     ConfigJSON := fun _ => "{}" |}.

(** An interpreter for which scripts succeed without effect and a
    compiled unit evaluates to the string ["42"]. *)
Definition demoMrb : Mrb (list string) :=
  {| LoadString := fun _ h => (None, h);
     RunWithContext := fun _ k h => ((k, Some (MrbString "42"), None), h);
     Yield := fun _ h => (None, h) |}.

(** A fresh builder over a given cache, with an optional [after] hook. *)
Definition demoWorld (cache : list string) (after : option MrbValue)
    : World (list string) :=
  {| bld := {| result := mkResult "" None None;
               config := {| Globals := {| OmitFuncs := []; TTY := false |};
                            Context_ := {| ctx_Done := false; ctx_Err := None |};
                            Runner := ChanOpen;
                            FileName := "box.rb" |};
               heap := {| exec := cache; afterFunc := after |} |};
     trace := [] |}.

(** A handler that returns the fingerprint it was given. *)
Definition demoVerb : verbDefinition (list string) :=
  {| verbFunc := fun b key _ => ((Some (MrbString key), None), b);
     argSpec := ArgsAny |}.

Definition demoGetenv (name : string) : string := "".

(** A file system holding the one script [box.rb]. *)
Definition demoReadFile (name : string) : string + string :=
  if String.eqb name "box.rb" then inl "from 'alpine'" else inr "no such file".

End Core.

(** ** The DSL verbs ([verbs.go]) *)

Module Verbs.

(** The fields of the container configuration ([b.config]) the verbs use. *)
Record Config : Type := {
  Entrypoint : list string;
  Cmd : list string;
  Env : list string;
  User : string;
  WorkingDir : string;
  Tty : bool;
  AttachStdout : bool;
  AttachStderr : bool
}.

(** The [Builder] of [verbs.go], by the fields its verbs read and write.
    [b_entrypoint] and [b_cmd] are the fields [b.entrypoint] and [b.cmd]
    (the verbs of the same names are functions below). *)
Record Builder : Type := {
  imageID : string;
  insideDir : string;
  b_entrypoint : list string;
  b_cmd : list string;
  config : Config
}.

(** Calls made on the container runtime. *)
Inductive Call : Type :=
| CallImagePull (ref : string)
| CallContainerAttach (id : string)
| CallContainerStart (id : string)
| CallContainerWait (id : string)
| CallCommit (hooked : bool).

(** A builder, the process's standard output and the calls made so far
    (both newest first). *)
Record World : Type := {
  bld : Builder;
  stdout : list string;
  calls : list Call
}.

(** The progress stream of a pull: the complete lines it delivers, and
    how reading ends ([None] is [io.EOF]). *)
Record PullStream : Type := {
  lines : list string;
  read_err : option string
}.

(** A Go [error] as [run]'s hook tells them apart: the sentinel [io.EOF],
    which the hook compares against, or any other error with its
    message. *)
Inductive error : Type :=
| io_EOF
| errorString (msg : string).

(** The attached output of a container: what [io.Copy] writes, and the
    error it ends with, if any. *)
Record AttachResp : Type := {
  output : string;
  copy_err : option error
}.

(** The docker client ([b.client]), by the calls the verbs make. *)
Record Client : Type := {
  ImagePull : string -> PullStream + string;
  ContainerAttach : string -> AttachResp + string;
  ContainerStart : string -> option string;
  ContainerWait : string -> Z + string
}.

(** The run hook handed to [commit]: [func(b *Builder, id string) error]. *)
Definition Hook : Type := string -> World -> option string * World.

(** A verb: [func(b *Builder, m *mruby.Mrb, self *mruby.MrbValue)], applied
    to the arguments [m.GetArgs()]. *)
Definition Func : Type := list MrbValue -> World -> outcome verbResult * World.

(** [Definition]: an entry of the jump table. *)
Record Definition_ : Type := {
  Func_ : Func;
  ArgSpec_ : ArgSpec
}.

Definition set_config (c : Config) (b : Builder) : Builder :=
  {| imageID := imageID b; insideDir := insideDir b;
     b_entrypoint := b_entrypoint b; b_cmd := b_cmd b; config := c |}.

Definition set_imageID (i : string) (b : Builder) : Builder :=
  {| imageID := i; insideDir := insideDir b;
     b_entrypoint := b_entrypoint b; b_cmd := b_cmd b; config := config b |}.

Definition set_insideDir (d : string) (b : Builder) : Builder :=
  {| imageID := imageID b; insideDir := d;
     b_entrypoint := b_entrypoint b; b_cmd := b_cmd b; config := config b |}.

Definition set_b_entrypoint (l : list string) (b : Builder) : Builder :=
  {| imageID := imageID b; insideDir := insideDir b;
     b_entrypoint := l; b_cmd := b_cmd b; config := config b |}.

Definition set_b_cmd (l : list string) (b : Builder) : Builder :=
  {| imageID := imageID b; insideDir := insideDir b;
     b_entrypoint := b_entrypoint b; b_cmd := l; config := config b |}.

Definition set_Entrypoint (l : list string) (c : Config) : Config :=
  {| Entrypoint := l; Cmd := Cmd c; Env := Env c; User := User c;
     WorkingDir := WorkingDir c; Tty := Tty c;
     AttachStdout := AttachStdout c; AttachStderr := AttachStderr c |}.

Definition set_Cmd (l : list string) (c : Config) : Config :=
  {| Entrypoint := Entrypoint c; Cmd := l; Env := Env c; User := User c;
     WorkingDir := WorkingDir c; Tty := Tty c;
     AttachStdout := AttachStdout c; AttachStderr := AttachStderr c |}.

Definition set_Env (l : list string) (c : Config) : Config :=
  {| Entrypoint := Entrypoint c; Cmd := Cmd c; Env := l; User := User c;
     WorkingDir := WorkingDir c; Tty := Tty c;
     AttachStdout := AttachStdout c; AttachStderr := AttachStderr c |}.

Definition set_User (u : string) (c : Config) : Config :=
  {| Entrypoint := Entrypoint c; Cmd := Cmd c; Env := Env c; User := u;
     WorkingDir := WorkingDir c; Tty := Tty c;
     AttachStdout := AttachStdout c; AttachStderr := AttachStderr c |}.

Definition set_WorkingDir (d : string) (c : Config) : Config :=
  {| Entrypoint := Entrypoint c; Cmd := Cmd c; Env := Env c; User := User c;
     WorkingDir := d; Tty := Tty c;
     AttachStdout := AttachStdout c; AttachStderr := AttachStderr c |}.

(** [Tty], [AttachStdout] and [AttachStderr] set to [true]. *)
Definition set_attach (c : Config) : Config :=
  {| Entrypoint := Entrypoint c; Cmd := Cmd c; Env := Env c; User := User c;
     WorkingDir := WorkingDir c; Tty := true;
     AttachStdout := true; AttachStderr := true |}.

Definition with_bld (b : Builder) (w : World) : World :=
  {| bld := b; stdout := stdout w; calls := calls w |}.

(** An update of [b.config]. *)
Definition upd_config (f : Config -> Config) (w : World) : World :=
  with_bld (set_config (f (config (bld w))) (bld w)) w.

Definition print (s : string) (w : World) : World :=
  {| bld := bld w; stdout := s :: stdout w; calls := calls w |}.

Definition record (c : Call) (w : World) : World :=
  {| bld := bld w; stdout := stdout w; calls := c :: calls w |}.

Definition LF : string := String "010"%char EmptyString.
Definition CR : string := String "013"%char EmptyString.

(** [fmt.Println(s)] *)
Definition Println (s : string) (w : World) : World := print (s +:+ LF) w.

(** Structural equality of script values, standing for the key
    comparison of the interpreter's hashes. *)
Fixpoint mrb_eqb (a b : MrbValue) : bool :=
  match a, b with
  | MrbNil, MrbNil => true
  | MrbString s, MrbString t => String.eqb s t
  | MrbHash i kv, MrbHash j kv' =>
      String.eqb i j &&
      (fix entries_eqb (l l' : list (MrbValue * MrbValue)) : bool :=
         match l, l' with
         | [], [] => true
         | (k, v) :: r, (k', v') :: r' =>
             mrb_eqb k k' && mrb_eqb v v' && entries_eqb r r'
         | _, _ => false
         end) kv kv'
  | MrbProc i n, MrbProc j m => String.eqb i j && Nat.eqb n m
  | MrbException s, MrbException t => String.eqb s t
  | MrbOther s, MrbOther t => String.eqb s t
  | _, _ => false
  end.

(** The errors of the interpreter's hash and array accessors.
    [hash.Keys()], [keys.Array().Get(i)] and [hash.Get(key)] each return
    a value and an error; a field gives the error of one such call, if
    the interpreter ends it with one. *)
Record Faults : Type := {
  Keys_err : MrbValue -> option string;
  ArrayGet_err : list MrbValue -> nat -> option string;
  Get_err : MrbValue -> MrbValue -> option string
}.

(** An interpreter whose accessors never fail. *)
Definition noFaults : Faults :=
  {| Keys_err := fun _ => None;
     ArrayGet_err := fun _ _ => None;
     Get_err := fun _ _ => None |}.

(** [v.Hash().Keys()]: the keys in the interpreter's enumeration order,
    or an error.  [Hash()] performs no check; on a value that is no hash
    the call has no defined result. *)
Definition Hash_Keys (F : Faults) (v : MrbValue)
    : outcome (list MrbValue + string) :=
  match v with
  | MrbHash _ kv =>
      match Keys_err F v with
      | Some e => Returns (inr e)
      | None => Returns (inl (map fst kv))
      end
  | _ => Undefined
  end.

(** [keys.Array().Get(i)]: the element at an index, or an error; past
    the end the interpreter reads nil. *)
Definition Array_Get (F : Faults) (keys : list MrbValue) (i : nat)
    : MrbValue + string :=
  match ArrayGet_err F keys i with
  | Some e => inr e
  | None => inl (default MrbNil (keys !! i))
  end.

(** [v.Hash().Get(key)]: the value of a key, or an error; a missing key
    reads as nil. *)
Definition Hash_Get (F : Faults) (v key : MrbValue)
    : outcome (MrbValue + string) :=
  match v with
  | MrbHash _ kv =>
      match Get_err F v key with
      | Some e => Returns (inr e)
      | None =>
          match List.find (fun e => mrb_eqb (fst e) key) kv with
          | Some e => Returns (inl (snd e))
          | None => Returns (inl MrbNil)
          end
      end
  | _ => Undefined
  end.

Section Operations.
(** The docker client. *)
Variable C : Client.
(** [b.commit(hook)]; the method is declared outside the given sources.
    It may run the hook, change the builder and fail. *)
Variable commit : option Hook -> World -> outcome (option string) * World.
(** [m.Yield(block, arg)]: evaluates a block of script code, which may
    call verbs; the block's value, or an error. *)
Variable Yield : MrbValue -> MrbValue -> World -> (MrbValue + string) * World.
(** [json.Unmarshal] into a map of strings, then the lookup of one key. *)
Variable Unmarshal : string -> string -> string.
(** [strconv.Quote], as the format verb [%q] applies it. *)
Variable Quote : string -> string.
(** The verb [copy], which streams a tar archive from a goroutine; its
    body is not embedded. *)
Variable copy : Func.
(** The errors of the interpreter's hash and array accessors. *)
Variable F : Faults.

(** A call of [b.commit(hook)]. *)
Definition call_commit (hook : option Hook) (w : World)
    : outcome (option string) * World :=
  commit hook (record (CallCommit (bool_decide (is_Some hook))) w).

(** [func entrypoint] *)
Definition entrypoint : Func := fun args w =>
  let stringArgs := map mrb_String args in
  let w := with_bld (set_b_entrypoint stringArgs (bld w)) w in
  let w := upd_config (set_Entrypoint stringArgs) w in
  (Returns (None, None), w).

(** [func cmd] *)
Definition cmd : Func := fun args w =>
  let stringArgs := map mrb_String args in
  let w := with_bld (set_b_cmd stringArgs (bld w)) w in
  let w := upd_config (set_Cmd stringArgs) w in
  (Returns (None, None), w).

(** One progress record, as [from] prints it. *)
Definition progress_line (line : string) : string :=
  Unmarshal line "id" +:+ " " +:+ Unmarshal line "status" +:+ " "
  +:+ Unmarshal line "progress" +:+ CR.

(** The read loop of [from]: each complete line is printed; the loop ends
    at [io.EOF] ([None]) or at a read error. *)
Fixpoint read_progress (ls : list string) (fin : option string) (w : World)
    : option string * World :=
  match ls with
  | [] => (fin, w)
  | l :: rest => read_progress rest fin (print (progress_line l) w)
  end.

(** [func from] *)
Definition from : Func := fun args w =>
  match args with
  | [] => (Panics "index out of range", w)
  | a0 :: _ =>
      let w := with_bld (set_imageID (mrb_String a0) (bld w)) w in
      let w := upd_config set_attach w in
      let w := record (CallImagePull (imageID (bld w))) w in
      match ImagePull C (imageID (bld w)) with
      | inr e => (Returns (None, Some (createException e)), w)
      | inl reader =>
          match read_progress (lines reader) (read_err reader) w with
          | (Some e, w) => (Returns (None, Some (createException e)), w)
          | (None, w) => (Returns (Some a0, None), w)
          end
      end
  end.

(** The hook of [run]: attach, start, copy the output between the two
    banners, wait, and fail on a non-zero status.  A copy that ends in an
    error other than [io.EOF] ends the hook; after [io.EOF] the hook goes
    on as after a copy without error. *)
Definition run_hook : Hook := fun id w =>
  let w := record (CallContainerAttach id) w in
  match ContainerAttach C id with
  | inr e => (Some ("Could not attach to container: " +:+ e), w)
  | inl cearesp =>
      let w := record (CallContainerStart id) w in
      match ContainerStart C id with
      | Some e => (Some ("Could not start container: " +:+ e), w)
      | None =>
          let w := Println "------ BEGIN OUTPUT ------" w in
          let w := print (output cearesp) w in
          match copy_err cearesp with
          | Some (errorString msg) => (Some msg, w)
          | Some io_EOF | None =>
              let w := Println "------ END OUTPUT ------" w in
              let w := record (CallContainerWait id) w in
              match ContainerWait C id with
              | inr e => (Some e, w)
              | inl stat =>
                  if (stat =? 0)%Z then (None, w)
                  else (Some ("Command exited with status " +:+ pretty stat
                              +:+ " for container " +:+ Quote id), w)
              end
          end
      end
  end.

(** The deferred function of [run]: the three saved fields are written
    back. *)
Definition run_restore (entrypoint cmd : list string) (wd : string)
    (w : World) : World :=
  let w := upd_config (set_Entrypoint entrypoint) w in
  let w := upd_config (set_Cmd cmd) w in
  upd_config (set_WorkingDir wd) w.

(** The overrides [run] installs before it commits. *)
Definition run_override (stringArgs : list string) (w : World) : World :=
  let w := upd_config (set_Entrypoint ["/bin/sh"; "-c"]) w in
  let w := upd_config (set_Cmd stringArgs) w in
  if String.eqb (insideDir (bld w)) "" then w
  else upd_config (set_WorkingDir (insideDir (bld w))) w.

(** [func run] *)
Definition run : Func := fun args w =>
  if String.eqb (imageID (bld w)) "" then
    (Returns (Some (MrbString "`from` must precede any `run` statements"),
              None), w)
  else
    let stringArgs := map mrb_String args in
    let entrypoint := Entrypoint (config (bld w)) in
    let cmd := Cmd (config (bld w)) in
    let wd := WorkingDir (config (bld w)) in
    let w := run_override stringArgs w in
    let '(r, w) := call_commit (Some run_hook) w in
    let w := run_restore entrypoint cmd wd w in
    match r with
    | Returns (Some e) => (Returns (None, Some (createException e)), w)
    | Returns None => (Returns (None, None), w)
    | Panics msg => (Panics msg, w)
    | Undefined => (Undefined, w)
    end.

(** [func withUser] *)
Definition withUser : Func := fun args w =>
  match args with
  | [] => (Panics "index out of range", w)
  | a0 :: rest =>
      let w := upd_config (set_User (mrb_String a0)) w in
      match rest with
      | [] => (Panics "index out of range", w)
      | a1 :: _ =>
          let '(val, w) := Yield a1 a0 w in
          let w := upd_config (set_User "") w in
          match val with
          | inr e =>
              (Returns (None, Some (createException ("Could not yield: " +:+ e))),
               w)
          | inl v => (Returns (Some v, None), w)
          end
      end
  end.

(** [func inside] *)
Definition inside : Func := fun args w =>
  match args with
  | [] => (Panics "index out of range", w)
  | a0 :: rest =>
      let w := with_bld (set_insideDir (mrb_String a0) (bld w)) w in
      match rest with
      | [] => (Panics "index out of range", w)
      | a1 :: _ =>
          let '(val, w) := Yield a1 a0 w in
          let w := with_bld (set_insideDir "" (bld w)) w in
          match val with
          | inr e =>
              (Returns (None, Some (createException ("Could not yield: " +:+ e))),
               w)
          | inl v => (Returns (Some v, None), w)
          end
      end
  end.

(** The loop of [env], [for i := 0; i < keys.Array().Len(); i++], over
    the indices still to visit: the key at the index is fetched, then its
    value, and one [KEY=VALUE] entry is appended.  An error of either
    call ends the loop with the entries appended so far. *)
Fixpoint env_loop (hash : MrbValue) (keys : list MrbValue) (idx : list nat)
    (w : World) : outcome (option string) * World :=
  match idx with
  | [] => (Returns None, w)
  | i :: rest =>
      match Array_Get F keys i with
      | inr e => (Returns (Some e), w)
      | inl key =>
          match Hash_Get F hash key with
          | Returns (inr e) => (Returns (Some e), w)
          | Returns (inl value) =>
              let entry := mrb_String key +:+ "=" +:+ mrb_String value in
              env_loop hash keys rest
                (upd_config (fun c => set_Env (Env c ++ [entry]) c) w)
          | Panics msg => (Panics msg, w)
          | Undefined => (Undefined, w)
          end
      end
  end.

(** [func env] *)
Definition env : Func := fun args w =>
  match args with
  | [] => (Panics "index out of range", w)
  | hash :: _ =>
      match Hash_Keys F hash with
      | Returns (inr e) => (Returns (None, Some (createException e)), w)
      | Returns (inl keys) =>
          match env_loop hash keys (seq 0 (length keys)) w with
          | (Returns (Some e), w) =>
              (Returns (None, Some (createException e)), w)
          | (Returns None, w) =>
              match call_commit None w with
              | (Returns (Some e), w) =>
                  (Returns (None, Some (createException e)), w)
              | (Returns None, w) => (Returns (None, None), w)
              | (Panics msg, w) => (Panics msg, w)
              | (Undefined, w) => (Undefined, w)
              end
          | (Panics msg, w) => (Panics msg, w)
          | (Undefined, w) => (Undefined, w)
          end
      | Panics msg => (Panics msg, w)
      | Undefined => (Undefined, w)
      end
  end.

(** [var jumpTable] *)
Definition jumpTable : gmap string Definition_ :=
  list_to_map [
    ("copy", {| Func_ := copy; ArgSpec_ := ArgsReq 2 |});
    ("from", {| Func_ := from; ArgSpec_ := ArgsReq 1 |});
    ("run", {| Func_ := run; ArgSpec_ := ArgsAny |});
    ("with_user", {| Func_ := withUser; ArgSpec_ := ArgsOr ArgsBlock (ArgsReq 1) |});
    ("inside", {| Func_ := inside; ArgSpec_ := ArgsOr ArgsBlock (ArgsReq 1) |});
    ("env", {| Func_ := env; ArgSpec_ := ArgsAny |});
    ("cmd", {| Func_ := cmd; ArgSpec_ := ArgsAny |});
    ("entrypoint", {| Func_ := entrypoint; ArgSpec_ := ArgsAny |})
  ].

End Operations.

(** How [from] ends once its stream is read to the end. *)
Definition read_result (a0 : MrbValue) (fin : option string)
    : outcome verbResult :=
  match fin with
  | Some e => Returns (None, Some (createException e))
  | None => Returns (Some a0, None)
  end.

(** What a block-scoped verb returns for the outcome of its block. *)
Definition block_result (val : MrbValue + string) : outcome verbResult :=
  match val with
  | inl v => Returns (Some v, None)
  | inr e => Returns (None, Some (createException ("Could not yield: " +:+ e)))
  end.

(** *** Collaborators for the examples *)

(** A client whose registry is unreachable and whose containers exit
    with status 0. *)
Definition offlineClient : Client :=
  {| ImagePull := fun _ => inr "registry unreachable";
     ContainerAttach := fun _ => inl {| output := ""; copy_err := None |};
     ContainerStart := fun _ => None;
     ContainerWait := fun _ => inl 0%Z |}.

(** A client whose pulls deliver two progress records. *)
Definition onlineClient : Client :=
  {| ImagePull := fun _ =>
       inl {| lines := ["{pulling}"; "{done}"]; read_err := None |};
     ContainerAttach := fun _ => inl {| output := ""; copy_err := None |};
     ContainerStart := fun _ => None;
     ContainerWait := fun _ => inl 0%Z |}.

(** A commit that succeeds and changes nothing. *)
Definition demoCommit (hook : option Hook) (w : World)
    : outcome (option string) * World := (Returns None, w).

(** A commit that creates the container [c1] and runs the hook on it. *)
Definition hookCommit (hook : option Hook) (w : World)
    : outcome (option string) * World :=
  match hook with
  | Some h => let '(e, w) := h "c1" w in (Returns e, w)
  | None => (Returns None, w)
  end.

(** A client whose containers print [boom] and exit with status 1. *)
Definition failingClient : Client :=
  {| ImagePull := fun _ => inl {| lines := []; read_err := None |};
     ContainerAttach := fun _ => inl {| output := "boom"; copy_err := None |};
     ContainerStart := fun _ => None;
     ContainerWait := fun _ => inl 1%Z |}.

(** Blocks that evaluate to nil and change nothing. *)
Definition demoYield (block arg : MrbValue) (w : World)
    : (MrbValue + string) * World := (inl MrbNil, w).

(** A commit that succeeds and prints the user it commits with. *)
Definition userCommit (hook : option Hook) (w : World)
    : outcome (option string) * World :=
  (Returns None, print ("USER=" +:+ User (config (bld w))) w).

(** A commit that succeeds and prints the working directory it commits
    with. *)
Definition dirCommit (hook : option Hook) (w : World)
    : outcome (option string) * World :=
  (Returns None, print ("DIR=" +:+ WorkingDir (config (bld w))) w).

Definition demoUnmarshal (line key : string) : string := "".

Definition demoQuote (s : string) : string := s.

Definition demoConfig : Config :=
  {| Entrypoint := []; Cmd := []; Env := []; User := ""; WorkingDir := "";
     Tty := false; AttachStdout := false; AttachStderr := false |}.

(** A builder whose current image is [img]. *)
Definition demoWorld (img : string) : World :=
  {| bld := {| imageID := img; insideDir := ""; b_entrypoint := [];
               b_cmd := []; config := demoConfig |};
     stdout := [];
     calls := [] |}.

(** An interpreter for the blocks of the script
    [with_user "a" do with_user "b" do end; run "id" end]:
    block 0, the outer one, calls [with_user "b"] with block 1 and then
    [run "id"]; block 1 is empty, so the inner verb evaluates it as
    [demoYield] does. *)
Definition nestedUserYield (block arg : MrbValue) (w : World)
    : (MrbValue + string) * World :=
  match block with
  | MrbProc _ 0 =>
      let w := (withUser demoYield [MrbString "b"; MrbProc "inner" 1] w).2 in
      (inl MrbNil, (run onlineClient userCommit demoQuote [MrbString "id"] w).2)
  | _ => (inl MrbNil, w)
  end.

(** The same for [inside "/a" do inside "/b" do end; run "id" end]. *)
Definition nestedDirYield (block arg : MrbValue) (w : World)
    : (MrbValue + string) * World :=
  match block with
  | MrbProc _ 0 =>
      let w := (inside demoYield [MrbString "/b"; MrbProc "inner" 1] w).2 in
      (inl MrbNil, (run onlineClient dirCommit demoQuote [MrbString "id"] w).2)
  | _ => (inl MrbNil, w)
  end.

End Verbs.

(** ** The pull coordinator *)

Module PullCoordinator.

(** [func ResetPulls()], on [var pulls] of [builder.go]: image
    references mapped to completion signals.  A signal, a channel in the
    source, is named by the index of the request that made it. *)
Definition ResetPulls (pulls : gmap string nat) : gmap string nat := ∅.

(** Modelled from the spec: where a request [from(ref)] that goes through
    the coordinator stands.  The [from] that reads and writes [pulls]
    under [pullMutex] is not among the sources ([from] of [verbs.go]
    calls [ImagePull] directly); the positions follow sections 4.4 and
    4.6 of the specification.  A request first looks whether the image is
    present locally ([Called]); if it is not, it acquires the lock and
    checks the map ([AtLock]).  With no entry it inserts a fresh signal
    and releases the lock ([Registered]), performs the pull ([Pulling],
    from the moment the executor is asked until the pull is complete,
    then [Pulled]), signals completion ([Signalled]) and removes the
    entry.  With an entry it releases the lock and waits on the entry's
    signal ([Waiting]).  [Returned] records whether the request pulled. *)
Inductive pc : Type :=
| Called
| AtLock
| Registered
| Pulling
| Pulled
| Signalled
| Waiting (signal : nat)
| Returned (pulled : bool).

(** Modelled from the spec: what the requests of one process share: the
    coordinator's map, the signals that have been signalled, the images
    present locally, and the pulls the executor was asked for, newest
    first. *)
Record Shared : Type := {
  pulls : gmap string nat;
  closed : gset nat;
  present : gset string;
  issued : list string
}.

(** Modelled from the spec: the requests, each with its reference and
    its position, and what they share. *)
Record State : Type := {
  threads : list (string * pc);
  shared : Shared
}.

(** Modelled from the spec: one step of request [i] for the reference
    [r], following the contract of section 4.6: the test for a local
    image; the check of the map under the lock, which inserts a signal
    when there is no entry and otherwise takes the entry's signal to
    wait on; the request to the executor; the end of the pull, after
    which the image is present; the signal; the removal of the entry.  A
    waiting request can step only once its signal has been signalled,
    and then returns without pulling. *)
Definition pc_step (i : nat) (r : string) (c : pc) (sh : Shared)
    : option (pc * Shared) :=
  match c with
  | Called =>
      if bool_decide (r ∈ present sh) then Some (Returned false, sh)
      else Some (AtLock, sh)
  | AtLock =>
      match pulls sh !! r with
      | None =>
          Some (Registered,
                {| pulls := <[r := i]> (pulls sh); closed := closed sh;
                   present := present sh; issued := issued sh |})
      | Some signal => Some (Waiting signal, sh)
      end
  | Registered =>
      Some (Pulling,
            {| pulls := pulls sh; closed := closed sh;
               present := present sh; issued := r :: issued sh |})
  | Pulling =>
      Some (Pulled,
            {| pulls := pulls sh; closed := closed sh;
               present := {[ r ]} ∪ present sh; issued := issued sh |})
  | Pulled =>
      Some (Signalled,
            {| pulls := pulls sh; closed := {[ i ]} ∪ closed sh;
               present := present sh; issued := issued sh |})
  | Signalled =>
      Some (Returned true,
            {| pulls := delete r (pulls sh); closed := closed sh;
               present := present sh; issued := issued sh |})
  | Waiting signal =>
      if bool_decide (signal ∈ closed sh) then Some (Returned false, sh)
      else None
  | Returned _ => None
  end.

(** The scheduler lets request [i] take one step. *)
Definition step_at (i : nat) (s : State) : option State :=
  match threads s !! i with
  | None => None
  | Some (r, c) =>
      match pc_step i r c (shared s) with
      | None => None
      | Some (c', sh') =>
          Some {| threads := <[i := (r, c')]> (threads s); shared := sh' |}
      end
  end.

(** A schedule, as the list of requests that are given a turn; a request
    that cannot step when it is given a turn stays where it is. *)
Definition run_schedule (sched : list nat) (s : State) : State :=
  foldl (fun s i => default s (step_at i s)) s sched.

(** One request per reference of the list, all just called, over an
    empty coordinator; [present0] are the images present locally. *)
Definition start (refs : list string) (present0 : gset string) : State :=
  {| threads := map (fun r => (r, Called)) refs;
     shared := {| pulls := ResetPulls ∅; closed := ∅; present := present0;
                  issued := [] |} |}.

(** Is the request's entry in the map: inserted and not yet removed? *)
Definition owner (c : pc) : bool :=
  match c with
  | Registered | Pulling | Pulled | Signalled => true
  | _ => false
  end.

(** Has the request inserted an entry, now or earlier? *)
Definition inserted (c : pc) : bool :=
  match c with
  | Registered | Pulling | Pulled | Signalled | Returned true => true
  | _ => false
  end.

(** Has the request asked the executor for its pull? *)
Definition has_issued (c : pc) : bool :=
  match c with
  | Pulling | Pulled | Signalled | Returned true => true
  | _ => false
  end.

(** Has the request signalled completion? *)
Definition has_signalled (c : pc) : bool :=
  match c with
  | Signalled | Returned true => true
  | _ => false
  end.

(** Has the request still to check the map? *)
Definition unchecked (c : pc) : bool :=
  match c with
  | Called | AtLock => true
  | _ => false
  end.

Definition returned (c : pc) : bool :=
  match c with
  | Returned _ => true
  | _ => false
  end.

(** Is the request's pull under way? *)
Definition in_flight (c : pc) : bool :=
  match c with
  | Pulling => true
  | _ => false
  end.

(** The requests for [ref] whose position satisfies [p]. *)
Definition count_pc (p : pc -> bool) (ref : string) (ts : list (string * pc))
    : nat :=
  length (List.filter (fun t => String.eqb ref t.1 && p t.2) ts).

(** The number of pulls of [ref] the executor was asked for. *)
Definition pulls_issued (ref : string) (s : State) : nat :=
  length (List.filter (String.eqb ref) (issued (shared s))).

(** The number of requests for [ref]. *)
Definition callers (ref : string) (s : State) : nat :=
  count_pc (fun _ => true) ref (threads s).

(** Have all requests returned? *)
Definition all_returned (s : State) : bool :=
  forallb (fun t => returned t.2) (threads s).

(** Has the request removed its entry? *)
Definition removed (c : pc) : bool :=
  match c with
  | Returned true => true
  | _ => false
  end.

(** Has every request for [ref] made its checks, and none of them
    removed its entry yet? *)
Definition overlapping (ref : string) (s : State) : bool :=
  Nat.eqb (count_pc unchecked ref (threads s)) 0
  && Nat.eqb (count_pc removed ref (threads s)) 0.

(** How far a request has got; every step takes it further. *)
Definition rank (c : pc) : nat :=
  match c with
  | Called => 0
  | AtLock => 1
  | Registered | Waiting _ => 2
  | Pulling => 3
  | Pulled => 4
  | Signalled => 5
  | Returned _ => 6
  end.

(** A bound on the steps the requests can still take. *)
Definition work (ts : list (string * pc)) : nat :=
  sum_list (map (fun t => 6 - rank t.2) ts).

(** What every interleaving maintains.  An entry of the map belongs to a
    request for its reference that has inserted and not yet removed it,
    and there is one such request per entry and none without; a request
    that has signalled has its signal among the signalled ones; a waiting
    request waits on the signal of a request for the same reference
    that inserted an entry; the executor was asked for as many pulls of a
    reference as requests for it have got as far; an image is present
    only if it was at the start or a request for it inserted an entry,
    and a request returns without pulling only then. *)
Record inv (present0 : gset string) (s : State) : Prop := {
  inv_entry : forall r j,
    pulls (shared s) !! r = Some j ->
    exists c, threads s !! j = Some (r, c) /\ owner c = true;
  inv_owner : forall r,
    count_pc owner r (threads s)
    = match pulls (shared s) !! r with Some _ => 1 | None => 0 end;
  inv_closed : forall j r c,
    threads s !! j = Some (r, c) -> has_signalled c = true ->
    j ∈ closed (shared s);
  inv_waiting : forall i r j,
    threads s !! i = Some (r, Waiting j) ->
    exists c, threads s !! j = Some (r, c) /\ inserted c = true;
  inv_issued : forall r,
    pulls_issued r s = count_pc has_issued r (threads s);
  inv_present : forall r,
    r ∈ present (shared s) ->
    r ∈ present0 \/ 0 < count_pc inserted r (threads s);
  inv_skipped : forall i r,
    threads s !! i = Some (r, Returned false) ->
    r ∈ present0 \/ 0 < count_pc inserted r (threads s)
}.

End PullCoordinator.

(** ** Builders running [from] of [verbs.go] side by side *)

Module Concurrent.
Import Verbs.

(** What the builders of one process share in [verbs.go]: the standard
    output and the container runtime, observed by the calls made. *)
Record Process : Type := {
  out : list string;
  issued : list Call
}.

(** Where a goroutine stands in [from]: at its entry, before the call of
    [ImagePull], in the read loop, or past its return. *)
Inductive pc : Type :=
| AtEntry (args : list MrbValue)
| AtPull (a0 : MrbValue)
| AtRead (a0 : MrbValue) (ls : list string) (fin : option string)
| Finished (r : outcome verbResult).

(** A goroutine evaluating [from] on its own builder. *)
Definition thread : Type := pc * Builder.

(** The builder and the shared state, seen as the world of [Verbs]. *)
Definition world_of (b : Builder) (p : Process) : World :=
  {| bld := b; stdout := out p; calls := issued p |}.

Definition process_of (w : World) (p : Process) : Process :=
  {| out := stdout w; issued := calls w |}.

Section Steps.
Variable C : Client.
Variable Unmarshal : string -> string -> string.

(** One step of [from]: the statements up to the call of [ImagePull];
    that call; one turn of the read loop; the return. *)
Definition from_step (t : thread) (p : Process) : option (thread * Process) :=
  let '(c, b) := t in
  match c with
  | AtEntry [] => Some ((Finished (Panics "index out of range"), b), p)
  | AtEntry (a0 :: _) =>
      let w := with_bld (set_imageID (mrb_String a0) b) (world_of b p) in
      let w := upd_config set_attach w in
      Some ((AtPull a0, bld w), process_of w p)
  | AtPull a0 =>
      let w := record (CallImagePull (imageID b)) (world_of b p) in
      match ImagePull C (imageID b) with
      | inr e =>
          Some ((Finished (Returns (None, Some (createException e))), b),
                process_of w p)
      | inl reader =>
          Some ((AtRead a0 (lines reader) (read_err reader), b), process_of w p)
      end
  | AtRead a0 (l :: rest) fin =>
      let w := print (progress_line Unmarshal l) (world_of b p) in
      Some ((AtRead a0 rest fin, b), process_of w p)
  | AtRead a0 [] (Some e) =>
      Some ((Finished (Returns (None, Some (createException e))), b), p)
  | AtRead a0 [] None => Some ((Finished (Returns (Some a0, None)), b), p)
  | Finished _ => None
  end.

(** A goroutine run on its own for at most [n] steps. *)
Fixpoint thread_run (n : nat) (t : thread) (p : Process) : thread * Process :=
  match n with
  | O => (t, p)
  | S n =>
      match from_step t p with
      | Some (t', p') => thread_run n t' p'
      | None => (t, p)
      end
  end.

(** The goroutines of the process and what they share. *)
Record System : Type := {
  threads : list thread;
  proc : Process
}.

(** The scheduler lets goroutine [i] take one step. *)
Definition sys_step_at (i : nat) (s : System) : option System :=
  match threads s !! i with
  | None => None
  | Some t =>
      match from_step t (proc s) with
      | None => None
      | Some (t', p') => Some {| threads := <[i := t']> (threads s); proc := p' |}
      end
  end.

(** Any goroutine that can step may be the next one. *)
Inductive sys_step : System -> System -> Prop :=
| sys_step_thread i s s' : sys_step_at i s = Some s' -> sys_step s s'.

(** A schedule, as the list of goroutines that step in turn. *)
Definition run_schedule (sched : list nat) (s : System) : System :=
  foldl (fun s i => default s (sys_step_at i s)) s sched.

End Steps.

(** [n] builders that each call [from] with the arguments [args]. *)
Definition start (n : nat) (args : list MrbValue) (b : Builder) : System :=
  {| threads := replicate n (AtEntry args, b);
     proc := {| out := []; issued := [] |} |}.

(** The number of pulls of [ref] among the calls made. *)
Definition pulls_issued (ref : string) (cs : list Call) : nat :=
  length (List.filter
            (fun c => match c with
                      | CallImagePull r => String.eqb r ref
                      | _ => false
                      end) cs).

(** Is the pull of this goroutine under way: issued and not yet read to
    its end? *)
Definition in_flight (t : thread) : bool :=
  match t.1 with
  | AtRead _ _ _ => true
  | _ => false
  end.

Definition finished (t : thread) : bool :=
  match t.1 with
  | Finished _ => true
  | _ => false
  end.

(** The pulls a goroutine has issued so far: none before its call of
    [ImagePull], one after. *)
Definition issued_by (t : thread) : nat :=
  match t.1 with
  | AtEntry _ | AtPull _ => 0
  | AtRead _ _ _ | Finished _ => 1
  end.

(** What holds of a goroutine that entered [from] with a first argument
    rendered as [ref]. *)
Definition thread_inv (ref : string) (t : thread) : Prop :=
  match t.1 with
  | AtEntry args => exists a rest, args = a :: rest /\ mrb_String a = ref
  | AtPull _ => imageID t.2 = ref
  | AtRead _ _ _ => True
  | Finished r => exists v, r = Returns v
  end.

(** What every interleaving of [n] such goroutines maintains. *)
Definition sys_inv (ref : string) (n : nat) (s : System) : Prop :=
  Forall (thread_inv ref) (threads s)
  /\ length (threads s) = n
  /\ pulls_issued ref (issued (proc s)) = sum_list (issued_by <$> threads s).

End Concurrent.

(** ** The cache key as the specification words it *)

Module CacheKeySpec.

(** The base 64 alphabet of RFC 4648, table 1: the values 0 to 25 are
    the letters A to Z, 26 to 51 the letters a to z, 52 to 61 the digits
    0 to 9, 62 is the plus sign and 63 the slash. *)
Definition alphabet (d : N) : ascii :=
  if (d <? 26)%N then ascii_of_N (N_of_ascii "A" + d)
  else if (d <? 52)%N then ascii_of_N (N_of_ascii "a" + (d - 26))
  else if (d <? 62)%N then ascii_of_N (N_of_ascii "0" + (d - 52))
  else if (d =? 62)%N then "+"%char
  else "/"%char.

(** The digit of weight [64 ^ k] of a number written in base 64. *)
Definition digit (v k : N) : N := ((v / 64 ^ k) mod 64)%N.

(** The standard base 64 encoding of RFC 4648, section 4, by arithmetic:
    three octets are one number of 24 bits, written as its four digits in
    base 64; a last group of one octet is filled up with zero bits and
    written as two digits and two pad characters, a last group of two
    octets as three digits and one pad character. *)
Fixpoint base64 (octets : list N) : list ascii :=
  match octets with
  | [] => []
  | [a] =>
      let v := (a * 256 * 256)%N in
      [alphabet (digit v 3); alphabet (digit v 2); "="%char; "="%char]
  | [a; b] =>
      let v := ((a * 256 + b) * 256)%N in
      [alphabet (digit v 3); alphabet (digit v 2); alphabet (digit v 1);
       "="%char]
  | a :: b :: c :: rest =>
      let v := ((a * 256 + b) * 256 + c)%N in
      alphabet (digit v 3) :: alphabet (digit v 2) :: alphabet (digit v 1)
      :: alphabet (digit v 0) :: base64 rest
  end.

(** The octets of a string. *)
Definition octets (s : string) : list N :=
  map N_of_ascii (list_ascii_of_string s).

(** The fingerprint in the words of the specification:
    [base64(join(", ", [name, str(a1), ..., str(an)]))], the join being
    the standard library's [String.concat] and the renderings those of
    [String()]. *)
Definition fingerprint (name : string) (args : list MrbValue) : string :=
  string_of_list_ascii
    (base64 (octets (String.concat ", " (name :: map mrb_String args)))).

End CacheKeySpec.

(** ** Reading a key back *)

Module base64_decode.

(** The position of a character in a list, counted from [i]. *)
Fixpoint index_from (c : ascii) (l : list ascii) (i : N) : option N :=
  match l with
  | [] => None
  | x :: l => if Ascii.eqb x c then Some i else index_from c l (N.succ i)
  end.

(** The value of a character of the standard alphabet. *)
Definition decode_char (c : ascii) : option N :=
  index_from c (list_ascii_of_string base64.encodeStd) 0.

(** The three bytes of four six-bit values. *)
Definition quantum (s1 s2 s3 s4 : N) : N :=
  (((s1 * 64 + s2) * 64 + s3) * 64 + s4)%N.

(** The inverse of [base64.Encode]: groups of four characters, the last
    of which may carry one or two padding characters. *)
Fixpoint Decode (src : list ascii) : option (list N) :=
  match src with
  | [] => Some []
  | c1 :: c2 :: c3 :: c4 :: rest =>
      match decode_char c1, decode_char c2 with
      | Some s1, Some s2 =>
          if Ascii.eqb c3 base64.padChar then
            match Ascii.eqb c4 base64.padChar, rest with
            | true, [] => Some [(quantum s1 s2 0 0 / 65536)%N]
            | _, _ => None
            end
          else
            match decode_char c3 with
            | None => None
            | Some s3 =>
                if Ascii.eqb c4 base64.padChar then
                  match rest with
                  | [] =>
                      let v := quantum s1 s2 s3 0 in
                      Some [(v / 65536)%N; ((v / 256) mod 256)%N]
                  | _ => None
                  end
                else
                  match decode_char c4, Decode rest with
                  | Some s4, Some bs =>
                      let v := quantum s1 s2 s3 s4 in
                      Some ((v / 65536)%N :: ((v / 256) mod 256)%N
                            :: (v mod 256)%N :: bs)
                  | _, _ => None
                  end
            end
      | _, _ => None
      end
  | _ => None
  end.

End base64_decode.

(** ** Construction and context ([builder.go]) *)

Module Setup.
Import Core.

(** [funcDefinition]: a helper function of the DSL, which is not wrapped
    by the step wrapper.  The type is declared outside the given
    sources; these are the two fields [NewBuilder] reads. *)
Record funcDefinition (S : Type) : Type := {
  fun_ : Builder S -> list MrbValue -> verbResult * Builder S;
  fun_argSpec : ArgSpec
}.
Arguments fun_ {S} _.
Arguments fun_argSpec {S} _.

(** What [DefineMethod] stores under a name on the interpreter's top
    level: a verb behind [wrapVerbFunc], or a helper function called
    directly. *)
Inductive Method (S : Type) : Type :=
| WrappedVerb (name : string) (vd : verbDefinition S)
| PlainFunc (fd : funcDefinition S).
Arguments WrappedVerb {S} name vd.
Arguments PlainFunc {S} fd.

(** The package-level switches [NewBuilder] flips: [color.NoColor] and
    [copy.NoTTY]. *)
Record Switches : Type := {
  NoColor : bool;
  NoTTY : bool
}.

(** One of the two loops of [NewBuilder]: every entry of a jump table
    whose name is kept is defined, replacing what the name held. *)
Definition define_all {S D : Type} (keep : string -> bool)
    (mk : string -> D -> Method S) (table : gmap string D)
    (methods : gmap string (Method S)) : gmap string (Method S) :=
  map_fold (fun name def acc =>
              if keep name then <[name := mk name def]> acc else acc)
    methods table.

Section Construction.
Context {S : Type}.
(** [docker.NewDocker(ctx, globals)] *)
Variable NewDocker : Context -> Global -> S + string.
(** [strconv.Quote], as the format verb [%q] applies it. *)
Variable Quote : string -> string.
(** [var verbJumpTable] and [var funcJumpTable], declared outside the
    given sources. *)
Variable verbJumpTable : gmap string (verbDefinition S).
Variable funcJumpTable : gmap string (funcDefinition S).
(** [(Executor).SetContext] *)
Variable exec_SetContext : Context -> S -> S.

(** [func NewExecutor(ctx, name, globals) (executor.Executor, error)] *)
Definition NewExecutor (ctx : Context) (name : string) (globals : Global)
    : S + string :=
  if String.eqb name "docker" then NewDocker ctx globals
  else inr ("Executor " +:+ Quote name +:+ " not found").

(** [func NewBuilder(bc BuildConfig)]: the builder, the
    methods defined on the interpreter and the package switches; a nil
    [bc.Globals] is given as [None]. *)
Definition NewBuilder (globals : option Global) (ctx : Context) (runner : chan)
    (fileName : string) (sw : Switches)
    : (Builder S * gmap string (Method S) * Switches) + string :=
  let globals := default {| OmitFuncs := []; TTY := false |} globals in
  let sw := if TTY globals then sw else {| NoColor := true; NoTTY := true |} in
  match NewExecutor ctx "docker" globals with
  | inr err => inr err
  | inl exec =>
      let builder :=
        {| result := mkResult "" None None;
           config := {| Globals := globals; Context_ := ctx;
                        Runner := runner; FileName := fileName |};
           heap := {| exec := exec; afterFunc := None |} |} in
      let methods := define_all (keep builder) WrappedVerb verbJumpTable ∅ in
      let methods :=
        define_all (keep builder) (fun _ => PlainFunc) funcJumpTable methods in
      inl (builder, methods, sw)
  end.

(** [func (b *Builder) SetContext(ctx context.Context)] *)
Definition SetContext (ctx : Context) (b : Builder S) : Builder S :=
  {| result := result b;
     config := {| Globals := Globals (config b); Context_ := ctx;
                  Runner := Runner (config b);
                  FileName := FileName (config b) |};
     heap := {| exec := exec_SetContext ctx (exec (heap b));
                afterFunc := afterFunc (heap b) |} |}.

(** [func (b *Builder) Tag(name string) error] *)
Definition Builder_Tag (E : Executor S) (name : string) (b : Builder S)
    : option string * Builder S :=
  let '(err, s) := Tag E name (exec (heap b)) in
  (err, set_exec s b).

End Construction.

(** *** Collaborators for the examples *)

Definition demoNewDocker (ctx : Context) (g : Global) : list string + string :=
  inl [].

Definition demoVerbs : gmap string (verbDefinition (list string)) :=
  list_to_map [("run", demoVerb); ("copy", demoVerb)].

Definition demoFunc : funcDefinition (list string) :=
  {| fun_ := fun b _ => ((None, None), b); fun_argSpec := ArgsAny |}.

Definition demoFuncs : gmap string (funcDefinition (list string)) :=
  list_to_map [("getenv", demoFunc)].

(** A builder whose context has been cancelled. *)
Definition cancelledWorld : World (list string) :=
  {| bld := {| result := mkResult "" None None;
               config := {| Globals := {| OmitFuncs := []; TTY := false |};
                            Context_ := {| ctx_Done := true;
                                           ctx_Err := Some "context canceled" |};
                            Runner := ChanOpen;
                            FileName := "box.rb" |};
               heap := {| exec := []; afterFunc := None |} |};
     trace := [] |}.

(** An executor whose cache cannot be read. *)
Definition brokenExecutor : Executor (list string) :=
  {| CheckCache := fun k s => ((false, Some "cache unavailable"), s);
     ImageID := fun _ => "";
     Tag := fun _ s => (None, s);
     MakeImage := fun s => (None, s);
     ConfigJSON := fun _ => "{}" |}.

(** An interpreter whose compiled units yield no value and which refuses
    to call a block that is nil. *)
Definition strictMrb : Mrb (list string) :=
  {| LoadString := fun _ h => (None, h);
     RunWithContext := fun _ k h => ((k, None, None), h);
     Yield := fun f h =>
       match f with
       | None => (Some "no block given", h)
       | Some _ => (None, h)
       end |}.

End Setup.

(** ** What [env] appends *)

Module EnvEntries.
Import Verbs.

(** The value a hash holds for a key, as [Hash_Get] finds it. *)
Definition hash_value (kv : list (MrbValue * MrbValue)) (key : MrbValue)
    : MrbValue :=
  match List.find (fun e => mrb_eqb (fst e) key) kv with
  | Some e => snd e
  | None => MrbNil
  end.

(** The [KEY=VALUE] strings of a hash, in the order of its keys. *)
Definition entries (kv : list (MrbValue * MrbValue)) : list string :=
  map (fun key => mrb_String key +:+ "=" +:+ mrb_String (hash_value kv key))
    (map fst kv).

(** No key of the list equals a later one, as in a hash. *)
Fixpoint distinct_keys (kv : list (MrbValue * MrbValue)) : bool :=
  match kv with
  | [] => true
  | e :: rest =>
      forallb (fun e' => negb (mrb_eqb (fst e) (fst e'))) rest
      && distinct_keys rest
  end.

(** How a verb's result follows from the outcome of its commit. *)
Definition commit_result (r : outcome (option string)) : outcome verbResult :=
  match r with
  | Returns (Some e) => Returns (None, Some (createException e))
  | Returns None => Returns (None, None)
  | Panics msg => Panics msg
  | Undefined => Undefined
  end.

(** An interpreter that evaluates every block by calling
    [run "id"] on the example client. *)
Definition runBlockYield (block arg : MrbValue) (w : World)
    : (MrbValue + string) * World :=
  (inl MrbNil, (run onlineClient demoCommit demoQuote [MrbString "id"] w).2).

End EnvEntries.

(** ** The interpreter of [command/commands.go] *)

Module Command.

(** [Interpreter]: statements combined with an executor of state [S]. *)
Record Interpreter (G S : Type) : Type := {
  CacheKey : string;
  globals : G;
  exec : S
}.
Arguments CacheKey {G S} _.
Arguments globals {G S} _.
Arguments exec {G S} _.

(** [func NewInterpreter(globals, exec) *Interpreter] *)
Definition NewInterpreter {G S : Type} (g : G) (e : S) : Interpreter G S :=
  {| CacheKey := ""; globals := g; exec := e |}.

(** [func (i *Interpreter) makeLayer(useHook bool) error], over the
    executor's [Commit] and its [RunHook]. *)
Definition makeLayer {G S H : Type}
    (Commit : string -> option H -> S -> option string * S) (RunHook : H)
    (useHook : bool) (i : Interpreter G S) : option string * Interpreter G S :=
  let hook := if useHook then Some RunHook else None in
  let '(err, s) := Commit (CacheKey i) hook (exec i) in
  (err, {| CacheKey := CacheKey i; globals := globals i; exec := s |}).

End Command.

(** * Properties *)

(** ** The encoder on known vectors *)

Example b64_run_true : base64.EncodeToString "run, true" = "cnVuLCB0cnVl".
Proof. reflexivity. Qed.

Example b64_debug : base64.EncodeToString "debug" = "ZGVidWc=".
Proof. reflexivity. Qed.

Example b64_copy : base64.EncodeToString "copy, a, b" = "Y29weSwgYSwgYg==".
Proof. reflexivity. Qed.

Example join_three : Join ["copy"; "a"; "b"] ", " = "copy, a, b".
Proof. reflexivity. Qed.

Example join_empty : Join [] ", " = "".
Proof. reflexivity. Qed.

(** [Join] is the concatenation with separators of the standard
    library. *)
Lemma append_assoc (s1 s2 s3 : string) :
  (s1 +:+ s2) +:+ s3 = s1 +:+ (s2 +:+ s3).
Proof.
  induction s1 as [|c s1 IH]; [done|].
  change (String c ((s1 +:+ s2) +:+ s3) = String c (s1 +:+ (s2 +:+ s3))).
  by rewrite IH.
Qed.

Lemma Join_fold_left sep rest acc e :
  fold_left (fun acc s => acc +:+ sep +:+ s) rest (acc +:+ e)
  = acc +:+ fold_left (fun acc s => acc +:+ sep +:+ s) rest e.
Proof.
  revert e. induction rest as [|s rest IH]; intros e; [done|].
  cbn [fold_left]. by rewrite <- IH, append_assoc.
Qed.

Lemma Join_concat elems sep : Join elems sep = String.concat sep elems.
Proof.
  destruct elems as [|e rest]; [done|]. cbn [Join].
  revert e. induction rest as [|s rest IH]; intros e; [done|].
  cbn [fold_left]. by rewrite <- append_assoc, Join_fold_left, IH, append_assoc.
Qed.

(** The encoder writes four characters for every three bytes, the last
    group padded. *)
Lemma Encode_length src :
  length (base64.Encode src) = 4 * ((length src + 2) / 3).
Proof.
  assert (H : forall n (l : list N), length l <= n ->
                length (base64.Encode l) = 4 * ((length l + 2) / 3)).
  { induction n as [|n IH]; intros [|a [|b [|c rest]]] Hl; try done;
      cbn [length] in Hl; try lia.
    cbn [base64.Encode length]. rewrite IH by lia.
    replace (S (S (S (length rest))) + 2) with (1 * 3 + (length rest + 2)) by lia.
    rewrite Nat.div_add_l by lia. lia. }
  by apply (H (length src)).
Qed.

(** ** The step wrapper and the run protocol *)

Module CoreFacts.
Import Core.

Section Wrapper.
Context {St : Type} (E : Executor St) (Getenv : string -> string).

Lemma extractStringArgs_fingerprint name args :
  base64.EncodeToString (Join (name :: extractStringArgs args) ", ")
  = fingerprint name args.
Proof. reflexivity. Qed.

(** The wrapper past the cancellation probe, step by step. *)
Lemma wrapVerbFunc_unfold name vd args (w : World St) :
  ctx_Done (Context_ (config (bld w))) = false ->
  wrapVerbFunc E Getenv name vd args w =
    let key := fingerprint name args in
    let w1 := emit (EvBuildStep name (Join (extractStringArgs args) ", ")) w in
    let w2 := if String.eqb (Getenv "BOX_DEBUG") "" then w1
              else emit (EvPrintln (ConfigJSON E (exec (heap (bld w1))))) w1 in
    let probe := CheckCache E key (exec (heap (bld w))) in
    let w3 := emit (EvCheckCache key) (with_bld (set_exec probe.2 (bld w)) w2) in
    match probe.1.2 with
    | Some e => ((None, Some (createException e)), w3)
    | None =>
        if negb probe.1.1 || String.eqb name "debug" then
          let w4 := emit (EvVerbFunc name key) w3 in
          let out := verbFunc vd (set_exec probe.2 (bld w)) key args in
          (out.1, with_bld out.2 w4)
        else ((None, None), w3)
    end.
Proof.
  intros Hctx. unfold wrapVerbFunc. rewrite Hctx.
  rewrite extractStringArgs_fingerprint. cbn zeta.
  destruct (String.eqb (Getenv "BOX_DEBUG") ""); cbn [emit bld];
    destruct (CheckCache E (fingerprint name args) (exec (heap (bld w))))
      as [[cached err] s]; cbn;
    destruct err; try reflexivity;
    destruct (negb cached || String.eqb name "debug"); try reflexivity;
    destruct (verbFunc vd _ _ _); reflexivity.
Qed.

(** A cancelled context: the wrapper returns before anything is logged
    or probed. *)
Lemma wrapVerbFunc_cancelled name vd args (w : World St) :
  ctx_Done (Context_ (config (bld w))) = true ->
  (wrapVerbFunc E Getenv name vd args w).2 = w.
Proof.
  intros Hctx. unfold wrapVerbFunc. rewrite Hctx.
  by destruct (ctx_Err _).
Qed.

(** The keys in the events of the wrapper: whenever it probes the cache
    or invokes the handler, the key is the one it computed from the
    verb's name and the renderings of the arguments. *)
Lemma wrapVerbFunc_key_events name vd args (w : World St) :
  let w' := (wrapVerbFunc E Getenv name vd args w).2 in
  (ctx_Done (Context_ (config (bld w))) = false ->
     EvCheckCache (fingerprint name args) ∈ trace w')
  /\ (forall k, EvCheckCache k ∈ trace w' ->
        EvCheckCache k ∈ trace w \/ k = fingerprint name args)
  /\ (forall n k, EvVerbFunc n k ∈ trace w' ->
        EvVerbFunc n k ∈ trace w \/ n = name /\ k = fingerprint name args)
  /\ fingerprint name args
     = base64.EncodeToString (Join (name :: map mrb_String args) ", ")
  /\ (forall args', map mrb_String args' = map mrb_String args ->
        fingerprint name args' = fingerprint name args).
Proof.
  cbn zeta.
  assert (Hdet : forall args', map mrb_String args' = map mrb_String args ->
                   fingerprint name args' = fingerprint name args).
  { intros args' Heq. unfold fingerprint. by rewrite Heq. }
  destruct (ctx_Done (Context_ (config (bld w)))) eqn:Hctx.
  - rewrite wrapVerbFunc_cancelled by done.
    repeat split; try done; eauto.
  - split; [|split; [|split; [|split; [done|exact Hdet]]]]; clear Hdet;
      rewrite wrapVerbFunc_unfold by done; cbn zeta;
      generalize (fingerprint name args); intros key;
      destruct (CheckCache E key (exec (heap (bld w)))) as [[cached err] s];
      cbn [fst snd].
    + intros _.
      destruct (String.eqb (Getenv "BOX_DEBUG") ""), err,
        (negb cached || String.eqb name "debug"); cbn [trace emit with_bld snd];
        repeat first [apply list_elem_of_here | apply list_elem_of_further].
    + intros k.
      destruct (String.eqb (Getenv "BOX_DEBUG") ""), err,
        (negb cached || String.eqb name "debug"); cbn [trace emit with_bld snd];
        intros Hk;
        repeat (apply elem_of_cons in Hk as [Hk | Hk];
                [try discriminate; try (injection Hk as ->); auto |]);
        auto.
    + intros n k.
      destruct (String.eqb (Getenv "BOX_DEBUG") ""), err,
        (negb cached || String.eqb name "debug"); cbn [trace emit with_bld snd];
        intros Hk;
        repeat (apply elem_of_cons in Hk as [Hk | Hk];
                [try discriminate; try (injection Hk as -> ->); auto |]);
        auto.
Qed.

Lemma handler_calls_cons e t :
  handler_calls (e :: t)
  = match e with EvVerbFunc _ _ => S (handler_calls t) | _ => handler_calls t end.
Proof. by destruct e. Qed.

(** C2: past the cancellation probe, when the cache probe reports a hit
    the handler is not invoked and the wrapper returns (nil, nil), unless
    the verb is named debug, whose handler runs all the same; on a miss
    the handler is invoked with the fingerprint. *)
Theorem wrapVerbFunc_cache_probe name vd args (w : World St) cached s :
  ctx_Done (Context_ (config (bld w))) = false ->
  CheckCache E (fingerprint name args) (exec (heap (bld w)))
    = ((cached, None), s) ->
  let out := wrapVerbFunc E Getenv name vd args w in
  let probed := set_exec s (bld w) in
  let handled := verbFunc vd probed (fingerprint name args) args in
  (cached = true -> name <> "debug" ->
     out.1 = (None, None) /\ bld out.2 = probed
     /\ handler_calls (trace out.2) = handler_calls (trace w))
  /\ (cached = true -> name = "debug" ->
     out.1 = handled.1 /\ bld out.2 = handled.2
     /\ handler_calls (trace out.2) = S (handler_calls (trace w)))
  /\ (cached = false ->
     out.1 = handled.1 /\ bld out.2 = handled.2
     /\ handler_calls (trace out.2) = S (handler_calls (trace w))).
Proof.
  intros Hctx Hprobe. cbn zeta.
  rewrite wrapVerbFunc_unfold by done. cbn zeta. rewrite Hprobe.
  cbn [fst snd].
  destruct (String.eqb (Getenv "BOX_DEBUG") "");
    (destruct cached; (split; [|split]); try (intros; discriminate));
    [ intros _ Hname; apply String.eqb_neq in Hname; rewrite Hname
    | intros _ ->
    | intros _
    | intros _ Hname; apply String.eqb_neq in Hname; rewrite Hname
    | intros _ ->
    | intros _ ];
    cbn [fst snd bld trace emit with_bld negb orb String.eqb Ascii.eqb
         Bool.eqb andb];
    by rewrite ?handler_calls_cons.
Qed.


End Wrapper.

Section Protocol.
Context {St : Type} (E : Executor St) (M : Mrb St).
Variable ReadFile : string -> string + string.

Lemma RunScript_evaluated script (w : World St) h :
  LoadString M script (heap (bld w)) = (None, h) ->
  RunScript E M script w = post_evaluation E M (after_LoadString script h w).
Proof.
  intros Hload.
  unfold RunScript, post_evaluation, call_MakeImage, call_Yield,
    protocol_finalize, protocol_after, protocol_abort.
  cbn zeta. cbn [bld with_bld set_result heap]. rewrite Hload.
  unfold after_LoadString.
  cbn [bld with_bld emit set_heap set_exec set_result heap exec afterFunc
       trace result config].
  destruct (MakeImage E (exec h)) as [[e|] s]; [done|].
  cbn [bld with_bld emit set_heap set_exec set_result heap exec afterFunc
       trace result config].
  destruct (afterFunc h) as [f|]; [|done].
  by destruct (Yield M _ _) as [[e|] h'].
Qed.

Lemma RunCode_evaluated val keep (w : World St) keep' h f :
  RunWithContext M val keep (heap (bld w)) = ((keep', None, None), h) ->
  afterFunc h = Some f ->
  RunCode E M val keep w
  = ((post_evaluation E M (after_RunWithContext None None h w)).1, keep',
     (post_evaluation E M (after_RunWithContext None None h w)).2).
Proof.
  intros Hrun Hf.
  unfold RunCode, post_evaluation, call_MakeImage, call_Yield,
    protocol_finalize, protocol_after, protocol_abort.
  cbn zeta. rewrite Hrun.
  unfold after_RunWithContext.
  cbn [bld with_bld emit set_heap set_exec set_result heap exec afterFunc
       trace result config].
  destruct (MakeImage E (exec h)) as [[e|] s]; [done|].
  cbn [bld with_bld emit set_heap set_exec set_result heap exec afterFunc
       trace result config].
  rewrite Hf.
  by destruct (Yield M _ _) as [[e|] h'].
Qed.

Lemma RunCode_value val keep (w : World St) keep' v h :
  RunWithContext M val keep (heap (bld w)) = ((keep', Some v, None), h) ->
  RunCode E M val keep w
  = ((mkResult (FileName (config (bld w))) (Some v) None, keep'),
     after_RunWithContext (Some v) None h w).
Proof. intros Hrun. unfold RunCode. cbn zeta. by rewrite Hrun. Qed.

(** C6, amended: after a successful evaluation [RunScript], and [Run]
    through it, finalize the configuration into an image, invoke the
    [after] hook if one is registered and set the value to the current
    image id, an error at either step becoming the result's error;
    [RunCode] does the same when the evaluation produced no value and a
    hook is registered, and when the evaluation produced a value it
    returns that value without finalizing. *)
Theorem post_evaluation_protocol :
  (forall script (w : World St) h,
     LoadString M script (heap (bld w)) = (None, h) ->
     RunScript E M script w
     = post_evaluation E M (after_LoadString script h w))
  /\ (forall script (w : World St) h,
     ReadFile (FileName (config (bld w))) = inl script ->
     LoadString M script (heap (bld w)) = (None, h) ->
     let w0 := emit (EvReadFile (FileName (config (bld w)))) w in
     Run E M ReadFile w
     = deferred_close (post_evaluation E M (after_LoadString script h w0)).1
         (post_evaluation E M (after_LoadString script h w0)).2)
  /\ (forall val keep (w : World St) keep' h f,
     RunWithContext M val keep (heap (bld w)) = ((keep', None, None), h) ->
     afterFunc h = Some f ->
     RunCode E M val keep w
     = ((post_evaluation E M (after_RunWithContext None None h w)).1, keep',
        (post_evaluation E M (after_RunWithContext None None h w)).2))
  /\ (forall val keep (w : World St) keep' v h,
     RunWithContext M val keep (heap (bld w)) = ((keep', Some v, None), h) ->
     RunCode E M val keep w
     = ((mkResult (FileName (config (bld w))) (Some v) None, keep'),
        after_RunWithContext (Some v) None h w)).
Proof.
  split; [exact RunScript_evaluated|].
  split; [|split; [exact RunCode_evaluated | exact RunCode_value]].
  intros script w h Hread Hload. cbn zeta. unfold Run. cbn zeta.
  cbn [bld emit]. rewrite Hread.
  rewrite (RunScript_evaluated script _ h) by done.
  by destruct (post_evaluation E M _).
Qed.

(** [RunScript] leaves the build configuration alone and records no
    close. *)
Lemma RunScript_frame script (w : World St) :
  config (bld (RunScript E M script w).2) = config (bld w)
  /\ closes (trace (RunScript E M script w).2) = closes (trace w).
Proof.
  unfold RunScript, call_MakeImage, call_Yield. cbn zeta.
  cbn [bld with_bld set_result heap].
  destruct (LoadString M script _) as [[e|] h]; [done|].
  cbn [bld with_bld emit set_heap set_exec heap exec afterFunc].
  destruct (MakeImage E _) as [[e|] s]; [done|].
  cbn [bld with_bld emit set_heap set_exec heap exec afterFunc].
  destruct (afterFunc h) as [f|]; [|done].
  by destruct (Yield M _ _) as [[e|] h'].
Qed.

Lemma RunCode_frame val keep (w : World St) :
  config (bld (RunCode E M val keep w).2) = config (bld w)
  /\ closes (trace (RunCode E M val keep w).2) = closes (trace w).
Proof.
  unfold RunCode, call_MakeImage, call_Yield. cbn zeta.
  destruct (RunWithContext M val keep _) as [[[k res] [e|]] h]; [done|].
  destruct res as [v|]; [done|].
  cbn [bld with_bld emit set_heap set_exec set_result heap exec afterFunc].
  destruct (MakeImage E _) as [[e|] s]; [done|].
  cbn [bld with_bld emit set_heap set_exec set_result heap exec afterFunc].
  by destruct (Yield M _ _) as [[e|] h'].
Qed.

(** The body of [Run], before the deferred close. *)
Lemma Run_body (w : World St) :
  exists r w1,
    Run E M ReadFile w = deferred_close r w1
    /\ config (bld w1) = config (bld w)
    /\ closes (trace w1) = closes (trace w).
Proof.
  unfold Run. cbn zeta.
  destruct (ReadFile _) as [script|e].
  - destruct (RunScript_frame script
                (emit (EvReadFile (FileName (config (bld w)))) w)) as [Hc Ht].
    destruct (RunScript E M script _) as [r w1]. by exists r, w1.
  - by eexists _, _.
Qed.

(** C9: every call to [Run] executes exactly one close of the completion
    signal, whether reading the script fails or not; on an open signal
    the call returns with the signal closed; [RunScript] and [RunCode]
    execute no close and leave the signal as it was. *)
Theorem Run_closes_Runner_once :
  (forall w : World St,
     closes (trace (Run E M ReadFile w).2) = S (closes (trace w)))
  /\ (forall w : World St,
     Runner (config (bld w)) = ChanOpen ->
     (exists r, (Run E M ReadFile w).1 = Returns r)
     /\ Runner (config (bld (Run E M ReadFile w).2)) = ChanClosed)
  /\ (forall script (w : World St),
     closes (trace (RunScript E M script w).2) = closes (trace w)
     /\ Runner (config (bld (RunScript E M script w).2))
        = Runner (config (bld w)))
  /\ (forall val keep (w : World St),
     closes (trace (RunCode E M val keep w).2) = closes (trace w)
     /\ Runner (config (bld (RunCode E M val keep w).2))
        = Runner (config (bld w))).
Proof.
  split; [intros w | split; [intros w Hopen; split
    | split; [intros script w; split | intros val keep w; split]]].
  - destruct (Run_body w) as (r & w1 & -> & Hc & Ht).
    unfold deferred_close. cbn zeta. cbn [bld emit]. rewrite <- Ht.
    by destruct (close _).
  - destruct (Run_body w) as (r & w1 & -> & Hc & Ht).
    unfold deferred_close. cbn zeta. cbn [bld emit]. rewrite Hc, Hopen.
    by exists r.
  - destruct (Run_body w) as (r & w1 & -> & Hc & Ht).
    unfold deferred_close. cbn zeta. cbn [bld emit]. by rewrite Hc, Hopen.
  - apply RunScript_frame.
  - by destruct (RunScript_frame script w) as [-> _].
  - apply RunCode_frame.
  - by destruct (RunCode_frame val keep w) as [-> _].
Qed.

End Protocol.

(** A hit for [run "true"]: the handler is skipped. *)
Lemma wrapVerbFunc_cache_probe_hit :
  let key := fingerprint "run" [MrbString "true"] in
  let w := demoWorld [key] None in
  let out := wrapVerbFunc demoExecutor demoGetenv "run" demoVerb
               [MrbString "true"] w in
  out.1 = (None, None) /\ handler_calls (trace out.2) = 0.
Proof.
  cbv zeta.
  pose proof (wrapVerbFunc_cache_probe demoExecutor demoGetenv "run" demoVerb
                [MrbString "true"]
                (demoWorld [fingerprint "run" [MrbString "true"]] None)
                true [fingerprint "run" [MrbString "true"]]
                eq_refl eq_refl) as [Hhit _].
  destruct Hhit as (Hr & _ & Hc); [reflexivity | discriminate |].
  exact (conj Hr Hc).
Defined.

(** C6 as stated fails for [RunCode]: an evaluation that succeeds with a
    value is returned as it is; nothing is finalized and the value is not
    the image id. *)
Lemma RunCode_skips_protocol :
  let out := RunCode demoExecutor demoMrb (MrbProc "proc" 0) 0
               (demoWorld [] None) in
  Err out.1.1 = None
  /\ Value out.1.1 = Some (MrbString "42")
  /\ Value out.1.1
     <> Some (MrbString (Builder_ImageID demoExecutor (bld out.2)))
  /\ EvMakeImage ∉ trace out.2.
Proof.
  cbv zeta. repeat split; try reflexivity.
  - cbn. discriminate.
  - cbn. intros Hin. apply list_elem_of_singleton in Hin. discriminate.
Qed.

End CoreFacts.

(** ** The verbs *)

Module VerbsFacts.
Import Verbs.

Section Verbs.
Variable C : Client.
Variable commit : option Hook -> World -> outcome (option string) * World.
Variable Yield : MrbValue -> MrbValue -> World -> (MrbValue + string) * World.
Variable Unmarshal : string -> string -> string.
Variable Quote : string -> string.
Variable copy : Func.
Variable F : Faults.

(** Reading the progress stream prints; it touches neither the builder
    nor the record of calls, and ends as the stream ends. *)
Lemma read_progress_frame ls fin w :
  (read_progress Unmarshal ls fin w).1 = fin
  /\ bld (read_progress Unmarshal ls fin w).2 = bld w
  /\ calls (read_progress Unmarshal ls fin w).2 = calls w.
Proof.
  revert w. induction ls as [|l ls IH]; intros w; [done|].
  cbn [read_progress]. by destruct (IH (print (progress_line Unmarshal l) w))
    as (-> & -> & ->).
Qed.

(** [from] with a first argument, as one equation. *)
Lemma from_cons a0 rest w :
  from C Unmarshal (a0 :: rest) w
  = let w2 := record (CallImagePull (mrb_String a0))
                (upd_config set_attach
                   (with_bld (set_imageID (mrb_String a0) (bld w)) w)) in
    match ImagePull C (mrb_String a0) with
    | inr e => (Returns (None, Some (createException e)), w2)
    | inl reader =>
        (read_result a0 (read_err reader),
         (read_progress Unmarshal (lines reader) (read_err reader) w2).2)
    end.
Proof.
  unfold from. cbn zeta.
  change (imageID (bld (record _ _))) with (mrb_String a0).
  change (imageID (bld (upd_config set_attach
                          (with_bld (set_imageID (mrb_String a0) (bld w)) w))))
    with (mrb_String a0).
  destruct (ImagePull C (mrb_String a0)) as [reader|e]; [|done].
  match goal with |- context [read_progress Unmarshal ?ls ?fin ?w0] =>
    destruct (read_progress_frame ls fin w0) as (Hfin & _);
    destruct (read_progress Unmarshal ls fin w0) as [r w1] end.
  cbn [fst snd] in *. subst r. by destruct (read_err reader).
Qed.

(** C3, amended: [from] stores the rendering of its first argument as
    the image id before it issues the pull, so the image id is the
    requested reference whether the pull succeeds or fails; a failing
    pull, or a failing read of its progress stream, surfaces as an
    exception; a successful pull returns the first argument. *)
Theorem from_sets_imageID a0 rest w :
  let out := from C Unmarshal (a0 :: rest) w in
  imageID (bld out.2) = mrb_String a0
  /\ calls out.2 = CallImagePull (mrb_String a0) :: calls w
  /\ (forall e, ImagePull C (mrb_String a0) = inr e ->
        out.1 = Returns (None, Some (createException e)))
  /\ (forall reader e, ImagePull C (mrb_String a0) = inl reader ->
        read_err reader = Some e ->
        out.1 = Returns (None, Some (createException e)))
  /\ (forall reader, ImagePull C (mrb_String a0) = inl reader ->
        read_err reader = None ->
        out.1 = Returns (Some a0, None)).
Proof.
  cbn zeta. unfold from.
  change (imageID (bld (record _ _))) with (mrb_String a0).
  change (imageID (bld (upd_config set_attach
                          (with_bld (set_imageID (mrb_String a0) (bld w)) w))))
    with (mrb_String a0).
  destruct (ImagePull C (mrb_String a0)) as [reader|e] eqn:Hpull.
  - match goal with |- context [read_progress Unmarshal ?ls ?fin ?w0] =>
      destruct (read_progress_frame ls fin w0) as (Hfin & Hbld & Hcalls);
      destruct (read_progress Unmarshal ls fin w0) as [r w1] end.
    cbn [fst snd] in *. subst r.
    destruct (read_err reader) as [e|] eqn:Herr; cbn [fst snd];
      rewrite Hbld, Hcalls; repeat split; try done;
      intros; simplify_eq; congruence.
  - repeat split; try done; intros; simplify_eq; done.
Qed.

(** The overrides leave everything but the three fields as it was. *)
Lemma run_override_during stringArgs w :
  let during := run_override stringArgs w in
  Entrypoint (config (bld during)) = ["/bin/sh"; "-c"]
  /\ Cmd (config (bld during)) = stringArgs
  /\ WorkingDir (config (bld during))
     = (if String.eqb (insideDir (bld w)) "" then WorkingDir (config (bld w))
        else insideDir (bld w))
  /\ imageID (bld during) = imageID (bld w)
  /\ calls during = calls w.
Proof.
  cbn zeta. unfold run_override. cbn [bld upd_config with_bld set_config insideDir].
  by destruct (String.eqb (insideDir (bld w)) "").
Qed.

Lemma run_restore_fields e c wd w :
  Entrypoint (config (bld (run_restore e c wd w))) = e
  /\ Cmd (config (bld (run_restore e c wd w))) = c
  /\ WorkingDir (config (bld (run_restore e c wd w))) = wd.
Proof. done. Qed.

(** C4: on every exit of [run], the early return, a commit that
    succeeds, fails or panics, the entrypoint, the command and the
    working directory of the configuration are what they were before the
    call; the commit itself runs with the entrypoint [/bin/sh -c], the
    verb's arguments as command, and the directory of the enclosing
    [inside] block, if any, as working directory. *)
Theorem run_restores_config args w :
  let out := run C commit Quote args w in
  let during := record (CallCommit true) (run_override (map mrb_String args) w) in
  Entrypoint (config (bld out.2)) = Entrypoint (config (bld w))
  /\ Cmd (config (bld out.2)) = Cmd (config (bld w))
  /\ WorkingDir (config (bld out.2)) = WorkingDir (config (bld w))
  /\ (imageID (bld w) <> "" ->
       out.2 = run_restore (Entrypoint (config (bld w))) (Cmd (config (bld w)))
                 (WorkingDir (config (bld w)))
                 (commit (Some (run_hook C Quote)) during).2
       /\ Entrypoint (config (bld during)) = ["/bin/sh"; "-c"]
       /\ Cmd (config (bld during)) = map mrb_String args
       /\ WorkingDir (config (bld during))
          = (if String.eqb (insideDir (bld w)) ""
             then WorkingDir (config (bld w)) else insideDir (bld w))).
Proof.
  cbn zeta. unfold run, call_commit.
  destruct (String.eqb (imageID (bld w)) "") eqn:Himg.
  - apply String.eqb_eq in Himg. repeat split; try done.
  - change (bool_decide (is_Some (Some (run_hook C Quote)))) with true.
    destruct (run_override_during (map mrb_String args) w)
      as (He & Hc & Hwd & _).
    destruct (commit _ _) as [r w1]. cbn [snd].
    destruct r as [[e|]| |]; cbn [fst snd];
      (split; [done | split; [done | split; [done | intros _]]]);
      (split; [done | exact (conj He (conj Hc Hwd))]).
Qed.

(** C5: with an empty image id, [run] returns the diagnostic string as
    its value, with no exception, and leaves the builder, the output and
    the record of calls as they were: no commit is requested. *)
Theorem run_without_from args w :
  imageID (bld w) = "" ->
  run C commit Quote args w
  = (Returns (Some (MrbString "`from` must precede any `run` statements"), None),
     w)
  /\ calls (run C commit Quote args w).2 = calls w.
Proof.
  intros Himg. unfold run. by rewrite Himg.
Qed.

(** C7, amended: [with_user] called with a name and a block hands the
    block a builder that differs from the caller's in the user only,
    which is that name: the verb's outcome depends on the interpreter
    only through what the block does on builders with that user.  The
    verb returns the block's outcome, and when it returns the user is
    empty, whether the block succeeded or failed and whatever the user
    was before the call: the user is cleared, not put back.  [inside]
    does the same with the directory override. *)
Theorem scoped_verbs_enter_and_clear u blk rest w :
  (let entered := upd_config (set_User (mrb_String u)) w in
   let out := withUser Yield (u :: blk :: rest) w in
   (forall Yield' : MrbValue -> MrbValue -> World -> (MrbValue + string) * World,
       (forall w', User (config (bld w')) = mrb_String u ->
                   Yield' blk u w' = Yield blk u w') ->
       withUser Yield' (u :: blk :: rest) w = out)
   /\ out.1 = block_result (Yield blk u entered).1
   /\ out.2 = upd_config (set_User "") (Yield blk u entered).2
   /\ User (config (bld out.2)) = "")
  /\ (let entered := with_bld (set_insideDir (mrb_String u) (bld w)) w in
      let out := inside Yield (u :: blk :: rest) w in
      (forall Yield' : MrbValue -> MrbValue -> World -> (MrbValue + string) * World,
          (forall w', insideDir (bld w') = mrb_String u ->
                      Yield' blk u w' = Yield blk u w') ->
          inside Yield' (u :: blk :: rest) w = out)
      /\ out.1 = block_result (Yield blk u entered).1
      /\ out.2 = with_bld (set_insideDir "" (bld (Yield blk u entered).2))
                   (Yield blk u entered).2
      /\ insideDir (bld out.2) = "").
Proof.
  cbn zeta. unfold withUser, inside. split.
  - split.
    + intros Yield' Hagree. by rewrite Hagree.
    + destruct (Yield blk u _) as [[v|e] w1]; by repeat split.
  - split.
    + intros Yield' Hagree. by rewrite Hagree.
    + destruct (Yield blk u _) as [[v|e] w1]; by repeat split.
Qed.

(** On a hash the loop of [env] ends: with all entries appended, or with
    the error of an accessor. *)
Lemma env_loop_hash i kv keys idx w :
  exists e w', env_loop F (MrbHash i kv) keys idx w = (Returns e, w').
Proof.
  revert w. induction idx as [|n idx IH]; intros w; [by eexists _, _|].
  cbn [env_loop]. destruct (Array_Get F keys n) as [key|e]; [|by eexists _, _].
  cbn [Hash_Get]. destruct (Get_err F _ key); [by eexists _, _|].
  destruct (List.find _ kv); apply IH.
Qed.

(** C10: [env] is registered with the arity [ArgsAny]; called with no
    argument it panics on the index; it returns only when its first
    argument is a hash, and for a hash it returns whenever the commit
    does. *)
Theorem env_needs_a_hash :
  ArgSpec_ <$> (jumpTable C commit Yield Unmarshal Quote copy F !! "env")
  = Some ArgsAny
  /\ (forall w, env commit F [] w = (Panics "index out of range", w))
  /\ (forall args w r w',
        env commit F args w = (Returns r, w') ->
        exists i kv rest, args = MrbHash i kv :: rest)
  /\ (forall i kv rest w,
        (forall h w0, exists e w1, commit h w0 = (Returns e, w1)) ->
        exists r w', env commit F (MrbHash i kv :: rest) w = (Returns r, w')).
Proof.
  split; [by vm_compute|]. split; [done|]. split.
  - intros [|[] rest] w r w' Henv; try discriminate; eauto.
  - intros i kv rest w Hcommit. unfold env, call_commit. cbn [Hash_Keys].
    destruct (Keys_err F _); [by eexists _, _|].
    change (bool_decide (is_Some None)) with false.
    destruct (env_loop_hash i kv (map fst kv)
                (seq 0 (length (map fst kv))) w) as (e & w1 & ->).
    destruct e as [e|]; [by eexists _, _|].
    destruct (Hcommit None (record (CallCommit false) w1))
      as (e & w2 & ->).
    destruct e; eauto.
Qed.

End Verbs.

(** C3 as stated fails: a pull that fails leaves the builder with the
    requested reference as its image id, not with the previous one. *)
Lemma from_failed_pull_advances_imageID :
  let w := demoWorld "sha256:previous" in
  let out := from offlineClient demoUnmarshal [MrbString "alpine"] w in
  out.1 = Returns (None, Some (createException "registry unreachable"))
  /\ imageID (bld out.2) = "alpine"
  /\ imageID (bld out.2) <> imageID (bld w).
Proof. cbv zeta. repeat split. cbn. discriminate. Qed.

(** C7 as stated fails: in
    [with_user "a" do with_user "b" do end; run "id" end] the inner verb
    leaves the user empty, so the [run] of the outer block commits with
    no user although it is inside the block of [with_user "a"]; the same
    happens to the directory of nested [inside] blocks. *)
Lemma nested_block_loses_outer_scope :
  let w := demoWorld "alpine" in
  let user := withUser nestedUserYield [MrbString "a"; MrbProc "outer" 0] w in
  let dir := inside nestedDirYield [MrbString "/a"; MrbProc "outer" 0] w in
  (user.1 = Returns (Some MrbNil, None)
   /\ stdout user.2 = ["USER="]
   /\ stdout user.2 <> ["USER=a"])
  /\ (dir.1 = Returns (Some MrbNil, None)
      /\ stdout dir.2 = ["DIR="]
      /\ stdout dir.2 <> ["DIR=/a"]).
Proof. cbv zeta. by vm_compute. Qed.

(** [run "true"] with no image selected. *)
Lemma run_without_from_example :
  run offlineClient demoCommit demoQuote [MrbString "true"] (demoWorld "")
  = (Returns (Some (MrbString "`from` must precede any `run` statements"), None),
     demoWorld "")
  /\ calls (run offlineClient demoCommit demoQuote [MrbString "true"]
              (demoWorld "")).2 = [].
Proof.
  exact (run_without_from offlineClient demoCommit demoQuote
           [MrbString "true"] (demoWorld "") eq_refl).
Defined.

(** [env] appends the entries in the order the hash enumerates them. *)
Example env_two_entries :
  let h := MrbHash "{}" [(MrbString "A", MrbString "1");
                         (MrbString "B", MrbString "2")] in
  let out := env demoCommit noFaults [h] (demoWorld "alpine") in
  out.1 = Returns (None, None)
  /\ Env (config (bld out.2)) = ["A=1"; "B=2"]
  /\ calls out.2 = [CallCommit false].
Proof. by cbv zeta. Qed.

(** An interpreter that fails when the value of the second key is
    fetched: [env] returns the exception with the first entry appended
    and without a commit. *)
Example env_fault_keeps_entries :
  let h := MrbHash "{}" [(MrbString "A", MrbString "1");
                         (MrbString "B", MrbString "2")] in
  let faulty :=
    {| Keys_err := fun _ => None;
       ArrayGet_err := fun _ _ => None;
       Get_err := fun _ key =>
         if mrb_eqb key (MrbString "B") then Some "frozen" else None |} in
  let out := env demoCommit faulty [h] (demoWorld "alpine") in
  out.1 = Returns (None, Some (createException "frozen"))
  /\ Env (config (bld out.2)) = ["A=1"]
  /\ calls out.2 = [].
Proof. by cbv zeta. Qed.

(** [run] inside [inside]: the commit sees the overrides, the caller the
    restored configuration. *)
Example run_true_after_from :
  let w := (from onlineClient demoUnmarshal [MrbString "alpine"] (demoWorld "")).2 in
  let out := run onlineClient demoCommit demoQuote [MrbString "true"] w in
  out.1 = Returns (None, None)
  /\ config (bld out.2) = config (bld w)
  /\ calls out.2 = [CallCommit true; CallImagePull "alpine"]
  /\ length (stdout out.2) = 2.
Proof. by cbv zeta. Qed.

(** A command that exits with status 1: the hook's error surfaces as
    an exception, and the configuration is restored all the same. *)
Example run_exit_status :
  let w := (from failingClient demoUnmarshal [MrbString "alpine"] (demoWorld "")).2 in
  let out := run failingClient hookCommit demoQuote [MrbString "false"] w in
  out.1 = Returns (None, Some (createException
                     "Command exited with status 1 for container c1"))
  /\ config (bld out.2) = config (bld w)
  /\ calls out.2 = [CallContainerWait "c1"; CallContainerStart "c1";
                    CallContainerAttach "c1"; CallCommit true;
                    CallImagePull "alpine"].
Proof. by cbv zeta. Qed.

End VerbsFacts.

(** ** The pull coordinator *)

Module PullCoordinatorFacts.
Import PullCoordinator.

(** Two requests for different images, both past the check of the map:
    both pulls are under way at once. *)
Example distinct_refs_in_parallel :
  let s := run_schedule [0; 1; 0; 1; 0; 1] (start ["alpine"; "debian"] ∅) in
  threads s = [("alpine", Pulling); ("debian", Pulling)]
  /\ issued (shared s) = ["debian"; "alpine"].
Proof. by vm_compute. Qed.

(** Three requests for one image that all check the map before the
    first pull is over: one pulls, two wait and return without
    pulling. *)
Example three_requests_one_pull :
  let s := run_schedule [0; 1; 2; 0; 1; 2; 0; 1; 0; 2; 0; 0; 1; 2]
             (start ["alpine"; "alpine"; "alpine"] ∅) in
  threads s = [("alpine", Returned true); ("alpine", Returned false);
               ("alpine", Returned false)]
  /\ issued (shared s) = ["alpine"]
  /\ pulls (shared s) = ∅.
Proof. by vm_compute. Qed.

(** What a step changes. *)
Lemma step_at_Some i s s' :
  step_at i s = Some s' ->
  exists r c c' sh',
    threads s !! i = Some (r, c)
    /\ pc_step i r c (shared s) = Some (c', sh')
    /\ s' = {| threads := <[i := (r, c')]> (threads s); shared := sh' |}.
Proof.
  unfold step_at. destruct (threads s !! i) as [[r c]|] eqn:Hi; [|done].
  destruct (pc_step i r c (shared s)) as [[c' sh']|] eqn:Hstep; [|done].
  intros [= <-]. by exists r, c, c', sh'.
Qed.

Lemma lookup_upd {A} (ts : list A) i t t' j x :
  ts !! i = Some t ->
  <[i := t']> ts !! j = Some x
  <-> (j = i /\ x = t') \/ (j <> i /\ ts !! j = Some x).
Proof.
  intros Hi. destruct (decide (j = i)) as [->|Hne].
  - rewrite list_lookup_insert_eq by (by eapply lookup_lt_Some).
    split; [intros [= <-]; by left | intros [[_ ->]|[? _]]; done].
  - rewrite list_lookup_insert_ne by done.
    split; [by right | intros [[? _]|[_ ?]]; done].
Qed.

Lemma count_pc_cons p ref r c ts :
  count_pc p ref ((r, c) :: ts)
  = (if String.eqb ref r && p c then 1 else 0) + count_pc p ref ts.
Proof.
  unfold count_pc. cbn [List.filter fst snd].
  by destruct (String.eqb ref r && p c).
Qed.

Lemma count_pc_insert p ref (ts : list (string * pc)) i r c c' :
  ts !! i = Some (r, c) ->
  count_pc p ref (<[i := (r, c')]> ts)
  + (if String.eqb ref r && p c then 1 else 0)
  = count_pc p ref ts + (if String.eqb ref r && p c' then 1 else 0).
Proof.
  revert i. induction ts as [|[r0 c0] ts IH]; intros [|i] Hi; simplify_eq/=.
  - rewrite !count_pc_cons. lia.
  - rewrite !count_pc_cons. specialize (IH i Hi). lia.
Qed.

Lemma count_pc_le p ref ts : count_pc p ref ts <= count_pc (fun _ => true) ref ts.
Proof.
  induction ts as [|[r c] ts IH]; [done|]. rewrite !count_pc_cons.
  destruct (String.eqb ref r), (p c); cbn; lia.
Qed.

Lemma count_pc_ext p q ref ts :
  (forall i r c, ts !! i = Some (r, c) -> p c = q c) ->
  count_pc p ref ts = count_pc q ref ts.
Proof.
  induction ts as [|[r c] ts IH]; intros Hpq; [done|].
  rewrite !count_pc_cons, (Hpq 0 r c eq_refl), IH; [done|].
  intros i r' c' Hi. exact (Hpq (S i) r' c' Hi).
Qed.

Lemma count_pc_pos p ref (ts : list (string * pc)) j c :
  ts !! j = Some (ref, c) -> p c = true -> 0 < count_pc p ref ts.
Proof.
  revert j. induction ts as [|[r0 c0] ts IH]; intros [|j] Hj Hp; simplify_eq/=.
  - rewrite count_pc_cons, String.eqb_refl, Hp. cbn. lia.
  - rewrite count_pc_cons. specialize (IH j Hj Hp). lia.
Qed.

Lemma count_pc_two p ref (ts : list (string * pc)) i j c d :
  i <> j -> ts !! i = Some (ref, c) -> ts !! j = Some (ref, d) ->
  p c = true -> p d = true -> 2 <= count_pc p ref ts.
Proof.
  revert i j.
  induction ts as [|[r0 c0] ts IH]; intros [|i] [|j] Hne Hi Hj Hc Hd;
    simplify_eq/=; rewrite count_pc_cons.
  - rewrite String.eqb_refl, Hc. cbn.
    pose proof (count_pc_pos p ref ts j d Hj Hd). lia.
  - rewrite String.eqb_refl, Hd. cbn.
    pose proof (count_pc_pos p ref ts i c Hi Hc). lia.
  - assert (Hij : i <> j) by congruence.
    specialize (IH i j Hij Hi Hj Hc Hd). lia.
Qed.

Lemma count_pc_mono p q ref ts :
  (forall c, p c = true -> q c = true) ->
  count_pc p ref ts <= count_pc q ref ts.
Proof.
  intros Hpq. induction ts as [|[r c] ts IH]; [done|]. rewrite !count_pc_cons.
  destruct (String.eqb ref r); cbn [andb]; [|lia].
  destruct (p c) eqn:Hp; [rewrite (Hpq c Hp)|destruct (q c)]; lia.
Qed.

Lemma count_pc_split p q1 q2 ref ts :
  (forall c, p c = q1 c || q2 c) -> (forall c, q1 c && q2 c = false) ->
  count_pc p ref ts = count_pc q1 ref ts + count_pc q2 ref ts.
Proof.
  intros Hp Hq. induction ts as [|[r c] ts IH]; [done|]. rewrite !count_pc_cons.
  rewrite IH, Hp. specialize (Hq c).
  destruct (String.eqb ref r), (q1 c), (q2 c); cbn in *; try lia; done.
Qed.

Lemma count_pc_exists p ref ts :
  0 < count_pc p ref ts ->
  exists j c, ts !! j = Some (ref, c) /\ p c = true.
Proof.
  induction ts as [|[r c] ts IH]; [cbn; lia|]. rewrite count_pc_cons.
  destruct (String.eqb_spec ref r) as [->|Hne]; cbn [andb].
  - destruct (p c) eqn:Hp; [by exists 0, c|].
    intros Hpos. destruct IH as (j & d & Hj & Hd); [lia|]. by exists (S j), d.
  - intros Hpos. destruct IH as (j & d & Hj & Hd); [lia|]. by exists (S j), d.
Qed.

Lemma count_pc_start p ref (refs : list string) :
  p Called = false -> count_pc p ref (map (fun r => (r, Called)) refs) = 0.
Proof.
  intros Hp. induction refs as [|r refs IH]; [done|].
  cbn [map]. rewrite count_pc_cons, Hp, IH. by rewrite andb_false_r.
Qed.

Lemma lookup_start (refs : list string) j (r : string) c :
  map (fun r => (r, Called)) refs !! j = Some (r, c) -> c = Called.
Proof.
  revert j. induction refs as [|r0 refs IH]; intros [|j] Hj; simplify_eq/=; eauto.
Qed.

Lemma inv_start refs present0 : inv present0 (start refs present0).
Proof.
  split; cbn [start threads shared pulls closed present issued];
    unfold ResetPulls.
  - intros r j Hj. by rewrite lookup_empty in Hj.
  - intros r. rewrite lookup_empty. by apply count_pc_start.
  - intros j r c Hj Hc. by rewrite (lookup_start _ _ _ _ Hj) in Hc.
  - intros i r j Hi. by apply lookup_start in Hi.
  - intros r. unfold pulls_issued. cbn. by rewrite count_pc_start.
  - intros r Hr. by left.
  - intros i r Hi. by apply lookup_start in Hi.
Qed.

Lemma pulls_issued_request r r0 ts sh :
  pulls_issued r {| threads := ts;
                    shared := {| pulls := pulls sh; closed := closed sh;
                                 present := present sh;
                                 issued := r0 :: issued sh |} |}
  = (if String.eqb r r0 then 1 else 0)
    + length (List.filter (String.eqb r) (issued sh)).
Proof.
  unfold pulls_issued. cbn [shared issued List.filter].
  by destruct (String.eqb r r0).
Qed.

(** A step of a request keeps the count of the requests for [ref] that
    satisfy [p] when the request is for another reference or [p] holds
    of its position before the step as after. *)
Lemma count_pc_step p ref (ts : list (string * pc)) i r c c' :
  ts !! i = Some (r, c) ->
  String.eqb ref r = false \/ p c = p c' ->
  count_pc p ref (<[i := (r, c')]> ts) = count_pc p ref ts.
Proof.
  intros Hi Hsame. pose proof (count_pc_insert p ref ts i r c c' Hi) as Hc.
  destruct Hsame as [Hne|Hp].
  - rewrite Hne in Hc. cbn [andb] in Hc. lia.
  - rewrite Hp in Hc. lia.
Qed.

(** A step of a request does not lower the count when [p], once true of
    the request, stays true. *)
Lemma count_pc_grows p ref (ts : list (string * pc)) i r c c' :
  ts !! i = Some (r, c) ->
  (p c = true -> p c' = true) ->
  count_pc p ref ts <= count_pc p ref (<[i := (r, c')]> ts).
Proof.
  intros Hi Hp. pose proof (count_pc_insert p ref ts i r c c' Hi) as Hc.
  destruct (String.eqb ref r); cbn [andb] in Hc; [|lia].
  destruct (p c); [rewrite Hp in Hc by done|destruct (p c')]; lia.
Qed.

(** A request found with a property that steps do not take away is
    found with it after a step. *)
Lemma lookup_upd_keep (p : pc -> bool) (ts : list (string * pc)) i r c c' j r0 :
  ts !! i = Some (r, c) ->
  (p c = true -> p c' = true) ->
  (exists c0, ts !! j = Some (r0, c0) /\ p c0 = true) ->
  exists c0, <[i := (r, c')]> ts !! j = Some (r0, c0) /\ p c0 = true.
Proof.
  intros Hi Hp (c0 & Hj & Hc0). destruct (decide (j = i)) as [->|Hne].
  - rewrite Hi in Hj. simplify_eq. exists c'. split; [|by apply Hp].
    apply list_lookup_insert_eq. by eapply lookup_lt_Some.
  - exists c0. by rewrite list_lookup_insert_ne.
Qed.

Section Step.
Variable present0 : gset string.
Variables (ts : list (string * pc)) (sh : Shared).
Variables (i : nat) (r : string) (c c' : pc).
Hypothesis Hinv : inv present0 {| threads := ts; shared := sh |}.
Hypothesis Hi : ts !! i = Some (r, c).

(** The parts of the invariant that a step keeps when it leaves the
    shared state alone, or changes only one part of it. *)
Lemma keep_entry :
  (owner c = true -> owner c' = true) ->
  forall r0 j, pulls sh !! r0 = Some j ->
    exists c0, <[i := (r, c')]> ts !! j = Some (r0, c0) /\ owner c0 = true.
Proof.
  intros Hp r0 j Hj. apply lookup_upd_keep with (c := c); [done|done|].
  exact (inv_entry _ _ Hinv r0 j Hj).
Qed.

Lemma keep_owner :
  owner c = owner c' ->
  forall r0, count_pc owner r0 (<[i := (r, c')]> ts)
             = match pulls sh !! r0 with Some _ => 1 | None => 0 end.
Proof.
  intros Hp r0. rewrite (count_pc_step owner r0 ts i r c c' Hi) by (by right).
  exact (inv_owner _ _ Hinv r0).
Qed.

Lemma keep_closed (cl : gset nat) :
  closed sh ⊆ cl ->
  (has_signalled c' = true -> has_signalled c = true \/ i ∈ cl) ->
  forall j r0 c0, <[i := (r, c')]> ts !! j = Some (r0, c0) ->
    has_signalled c0 = true -> j ∈ cl.
Proof.
  intros Hsub Hp j r0 c0 Hj Hc0.
  apply (lookup_upd ts i (r, c) (r, c') j (r0, c0) Hi) in Hj
    as [[-> [= -> Hc']]|[Hne Hj]].
  - rewrite Hc' in Hc0. destruct (Hp Hc0) as [Hc|Hin]; [|done].
    apply Hsub. exact (inv_closed _ _ Hinv i r c Hi Hc).
  - apply Hsub. exact (inv_closed _ _ Hinv j r0 c0 Hj Hc0).
Qed.

Lemma keep_waiting :
  (inserted c = true -> inserted c' = true) ->
  (forall j, c' = Waiting j ->
     exists c0, ts !! j = Some (r, c0) /\ inserted c0 = true) ->
  forall i0 r0 j, <[i := (r, c')]> ts !! i0 = Some (r0, Waiting j) ->
    exists c0, <[i := (r, c')]> ts !! j = Some (r0, c0) /\ inserted c0 = true.
Proof.
  intros Hp Hnew i0 r0 j Hi0.
  apply (lookup_upd ts i (r, c) (r, c') i0 (r0, Waiting j) Hi) in Hi0
    as [[-> [= -> Hc']]|[Hne Hi0]].
  - apply lookup_upd_keep with (c := c); [done|done|]. by apply Hnew.
  - apply lookup_upd_keep with (c := c); [done|done|].
    exact (inv_waiting _ _ Hinv i0 r0 j Hi0).
Qed.

Lemma keep_issued :
  has_issued c = has_issued c' ->
  forall r0, length (List.filter (String.eqb r0) (issued sh))
             = count_pc has_issued r0 (<[i := (r, c')]> ts).
Proof.
  intros Hp r0. rewrite (count_pc_step has_issued r0 ts i r c c' Hi) by (by right).
  exact (inv_issued _ _ Hinv r0).
Qed.

Lemma keep_present :
  (inserted c = true -> inserted c' = true) ->
  forall r0, r0 ∈ present sh ->
    r0 ∈ present0 \/ 0 < count_pc inserted r0 (<[i := (r, c')]> ts).
Proof.
  intros Hp r0 Hr0.
  pose proof (count_pc_grows inserted r0 ts i r c c' Hi Hp).
  destruct (inv_present _ _ Hinv r0 Hr0) as [?|Hpos]; [by left|right].
  cbn [threads] in Hpos. lia.
Qed.

Lemma keep_skipped :
  (inserted c = true -> inserted c' = true) ->
  (c' = Returned false ->
     r ∈ present0 \/ 0 < count_pc inserted r ts) ->
  forall i0 r0, <[i := (r, c')]> ts !! i0 = Some (r0, Returned false) ->
    r0 ∈ present0 \/ 0 < count_pc inserted r0 (<[i := (r, c')]> ts).
Proof.
  intros Hp Hnew i0 r0 Hi0.
  pose proof (count_pc_grows inserted r0 ts i r c c' Hi Hp).
  apply (lookup_upd ts i (r, c) (r, c') i0 (r0, Returned false) Hi) in Hi0
    as [[-> [= -> Hc']]|[Hne Hi0]].
  - destruct (Hnew (eq_sym Hc')); [by left|right; lia].
  - destruct (inv_skipped _ _ Hinv i0 r0 Hi0) as [?|Hpos]; [by left|right].
    cbn [threads] in Hpos. lia.
Qed.

End Step.

(** Every step keeps the invariant. *)
Lemma inv_step present0 i s s' :
  inv present0 s -> step_at i s = Some s' -> inv present0 s'.
Proof.
  intros Hinv Hstep.
  destruct (step_at_Some i s s' Hstep) as (r & c & c' & sh' & Hi & Hpc & ->).
  clear Hstep. destruct s as [ts sh]. cbn [threads shared] in Hi, Hpc.
  destruct c; cbn [pc_step] in Hpc.
  - (* the test for a local image *)
    case_bool_decide as Hr; injection Hpc as <- <-.
    + split; cbn [threads shared pulls closed present issued].
      * by apply (keep_entry present0 ts sh i r Called).
      * by apply (keep_owner present0 ts sh i r Called).
      * by apply (keep_closed present0 ts sh i r Called).
      * by apply (keep_waiting present0 ts sh i r Called).
      * by apply (keep_issued present0 ts sh i r Called).
      * by apply (keep_present present0 ts sh i r Called).
      * apply (keep_skipped present0 ts sh i r Called); [done|done|done|].
        intros _. exact (inv_present _ _ Hinv r Hr).
    + split; cbn [threads shared pulls closed present issued].
      * by apply (keep_entry present0 ts sh i r Called).
      * by apply (keep_owner present0 ts sh i r Called).
      * by apply (keep_closed present0 ts sh i r Called).
      * by apply (keep_waiting present0 ts sh i r Called).
      * by apply (keep_issued present0 ts sh i r Called).
      * by apply (keep_present present0 ts sh i r Called).
      * by apply (keep_skipped present0 ts sh i r Called).
  - (* the check of the map *)
    destruct (pulls sh !! r) as [j0|] eqn:Hentry; injection Hpc as <- <-.
    + split; cbn [threads shared pulls closed present issued].
      * by apply (keep_entry present0 ts sh i r AtLock).
      * by apply (keep_owner present0 ts sh i r AtLock).
      * by apply (keep_closed present0 ts sh i r AtLock).
      * apply (keep_waiting present0 ts sh i r AtLock); [done|done|done|].
        intros j [= <-].
        destruct (inv_entry _ _ Hinv r j0 Hentry) as (c0 & Hj0 & Hc0).
        exists c0. split; [done|]. by destruct c0.
      * by apply (keep_issued present0 ts sh i r AtLock).
      * by apply (keep_present present0 ts sh i r AtLock).
      * by apply (keep_skipped present0 ts sh i r AtLock).
    + split; cbn [threads shared pulls closed present issued].
      * intros r0 j Hj. apply lookup_insert_Some in Hj as [[<- <-]|[Hne Hj]].
        -- exists Registered. split; [|done].
           apply list_lookup_insert_eq. by eapply lookup_lt_Some.
        -- by apply (keep_entry present0 ts sh i r AtLock).
      * intros r0.
        pose proof (count_pc_insert owner r0 ts i r AtLock Registered Hi) as Hc.
        pose proof (inv_owner _ _ Hinv r0) as Ho. cbn [threads shared] in Ho.
        destruct (decide (r0 = r)) as [->|Hne].
        -- rewrite lookup_insert_eq. rewrite Hentry in Ho.
           rewrite String.eqb_refl in Hc. cbn in Hc. lia.
        -- rewrite lookup_insert_ne by done.
           apply String.eqb_neq in Hne. rewrite Hne in Hc. cbn in Hc. lia.
      * by apply (keep_closed present0 ts sh i r AtLock).
      * by apply (keep_waiting present0 ts sh i r AtLock).
      * by apply (keep_issued present0 ts sh i r AtLock).
      * by apply (keep_present present0 ts sh i r AtLock).
      * by apply (keep_skipped present0 ts sh i r AtLock).
  - (* the request to the executor *)
    injection Hpc as <- <-.
    split; cbn [threads shared pulls closed present issued].
    + by apply (keep_entry present0 ts sh i r Registered).
    + by apply (keep_owner present0 ts sh i r Registered).
    + by apply (keep_closed present0 ts sh i r Registered).
    + by apply (keep_waiting present0 ts sh i r Registered).
    + intros r0. rewrite pulls_issued_request.
      pose proof (count_pc_insert has_issued r0 ts i r Registered Pulling Hi) as Hc.
      pose proof (inv_issued _ _ Hinv r0) as Ho.
      unfold pulls_issued in Ho. cbn [threads shared] in Ho.
      destruct (String.eqb r0 r); cbn in Hc; lia.
    + by apply (keep_present present0 ts sh i r Registered).
    + by apply (keep_skipped present0 ts sh i r Registered).
  - (* the end of the pull *)
    injection Hpc as <- <-.
    split; cbn [threads shared pulls closed present issued].
    + by apply (keep_entry present0 ts sh i r Pulling).
    + by apply (keep_owner present0 ts sh i r Pulling).
    + by apply (keep_closed present0 ts sh i r Pulling).
    + by apply (keep_waiting present0 ts sh i r Pulling).
    + by apply (keep_issued present0 ts sh i r Pulling).
    + intros r0 Hr0. apply elem_of_union in Hr0 as [Hr0|Hr0].
      * apply elem_of_singleton in Hr0 as ->. right.
        apply (count_pc_pos inserted r _ i Pulled); [|done].
        apply list_lookup_insert_eq. by eapply lookup_lt_Some.
      * by apply (keep_present present0 ts sh i r Pulling).
    + by apply (keep_skipped present0 ts sh i r Pulling).
  - (* the signal *)
    injection Hpc as <- <-.
    split; cbn [threads shared pulls closed present issued].
    + by apply (keep_entry present0 ts sh i r Pulled).
    + by apply (keep_owner present0 ts sh i r Pulled).
    + apply (keep_closed present0 ts sh i r Pulled); [done|done| |].
      * apply union_subseteq_r.
      * intros _. right. apply elem_of_union_l. by apply elem_of_singleton.
    + by apply (keep_waiting present0 ts sh i r Pulled).
    + by apply (keep_issued present0 ts sh i r Pulled).
    + by apply (keep_present present0 ts sh i r Pulled).
    + by apply (keep_skipped present0 ts sh i r Pulled).
  - (* the removal of the entry *)
    injection Hpc as <- <-.
    split; cbn [threads shared pulls closed present issued].
    + intros r0 j Hj. apply lookup_delete_Some in Hj as [Hne Hj].
      destruct (inv_entry _ _ Hinv r0 j Hj) as (c0 & Hj0 & Hc0).
      cbn [threads] in Hj0. exists c0. split; [|done].
      rewrite list_lookup_insert_ne; [done|]. intros <-. congruence.
    + intros r0.
      pose proof (count_pc_insert owner r0 ts i r Signalled (Returned true) Hi)
        as Hc.
      pose proof (inv_owner _ _ Hinv r0) as Ho. cbn [threads shared] in Ho.
      destruct (decide (r0 = r)) as [->|Hne].
      * rewrite lookup_delete_eq.
        pose proof (count_pc_pos owner r ts i Signalled Hi eq_refl).
        rewrite String.eqb_refl in Hc.
        destruct (pulls sh !! r); cbn in Hc; lia.
      * rewrite lookup_delete_ne by done.
        apply String.eqb_neq in Hne. rewrite Hne in Hc. cbn in Hc. lia.
    + apply (keep_closed present0 ts sh i r Signalled); [done|done|done|].
      intros _. by left.
    + by apply (keep_waiting present0 ts sh i r Signalled).
    + by apply (keep_issued present0 ts sh i r Signalled).
    + by apply (keep_present present0 ts sh i r Signalled).
    + by apply (keep_skipped present0 ts sh i r Signalled).
  - (* the end of a wait *)
    case_bool_decide as Hsig; [|done]. injection Hpc as <- <-.
    split; cbn [threads shared pulls closed present issued].
    + by apply (keep_entry present0 ts sh i r (Waiting signal)).
    + by apply (keep_owner present0 ts sh i r (Waiting signal)).
    + by apply (keep_closed present0 ts sh i r (Waiting signal)).
    + by apply (keep_waiting present0 ts sh i r (Waiting signal)).
    + by apply (keep_issued present0 ts sh i r (Waiting signal)).
    + by apply (keep_present present0 ts sh i r (Waiting signal)).
    + apply (keep_skipped present0 ts sh i r (Waiting signal)); [done|done|done|].
      intros _. right.
      destruct (inv_waiting _ _ Hinv i r signal Hi) as (c0 & Hj0 & Hc0).
      exact (count_pc_pos inserted r ts signal c0 Hj0 Hc0).
  - done.
Qed.

Lemma inv_run present0 sched s :
  inv present0 s -> inv present0 (run_schedule sched s).
Proof.
  revert s. induction sched as [|i sched IH]; intros s Hinv; [done|].
  cbn [run_schedule foldl]. apply IH.
  destruct (step_at i s) as [s1|] eqn:Hstep; cbn [default]; [|done].
  by eapply inv_step.
Qed.

(** *** What the steps of a request do to its position *)

Lemma pc_step_rank i r c sh c' sh' :
  pc_step i r c sh = Some (c', sh') -> rank c < rank c' <= 6.
Proof.
  destruct c; cbn [pc_step]; repeat case_bool_decide;
    try destruct (pulls sh !! r); intros [= <- <-]; cbn; lia.
Qed.

Lemma pc_step_unchecked i r c sh c' sh' :
  pc_step i r c sh = Some (c', sh') ->
  unchecked c = false -> unchecked c' = false /\ inserted c' = inserted c.
Proof.
  destruct c; cbn [pc_step]; repeat case_bool_decide;
    try destruct (pulls sh !! r); intros [= <- <-]; done.
Qed.

Lemma work_insert (ts : list (string * pc)) i r c c' :
  ts !! i = Some (r, c) ->
  work (<[i := (r, c')]> ts) + (6 - rank c) = work ts + (6 - rank c').
Proof.
  unfold work. revert i.
  induction ts as [|[r0 c0] ts IH]; intros [|i] Hi; simplify_eq/=; [lia|].
  specialize (IH i Hi). lia.
Qed.

Lemma step_at_work i s s' :
  step_at i s = Some s' -> work (threads s') < work (threads s).
Proof.
  intros Hstep.
  destruct (step_at_Some i s s' Hstep) as (r & c & c' & sh' & Hi & Hpc & ->).
  cbn [threads]. pose proof (work_insert (threads s) i r c c' Hi).
  pose proof (pc_step_rank i r c (shared s) c' sh' Hpc). lia.
Qed.

Lemma step_at_callers i s s' ref :
  step_at i s = Some s' -> callers ref s' = callers ref s.
Proof.
  intros Hstep.
  destruct (step_at_Some i s s' Hstep) as (r & c & c' & sh' & Hi & Hpc & ->).
  unfold callers. cbn [threads]. apply count_pc_step with (c := c); [done|by right].
Qed.

Lemma run_callers sched s ref :
  callers ref (run_schedule sched s) = callers ref s.
Proof.
  revert s. induction sched as [|i sched IH]; intros s; [done|].
  cbn [run_schedule foldl]. fold (run_schedule sched (default s (step_at i s))).
  rewrite IH. destruct (step_at i s) as [s1|] eqn:Hstep; cbn [default]; [|done].
  by eapply step_at_callers.
Qed.

Lemma callers_start ref refs present0 :
  callers ref (start refs present0) = length (List.filter (String.eqb ref) refs).
Proof.
  unfold callers, start. cbn [threads].
  induction refs as [|r refs IH]; [done|]. cbn [map List.filter].
  rewrite count_pc_cons, IH, andb_true_r. by destruct (String.eqb ref r).
Qed.

(** Once every request for [ref] has made its checks, no further request
    for it inserts an entry. *)
Lemma settled_step i s s' ref :
  count_pc unchecked ref (threads s) = 0 ->
  step_at i s = Some s' ->
  count_pc unchecked ref (threads s') = 0
  /\ count_pc inserted ref (threads s') = count_pc inserted ref (threads s).
Proof.
  intros Hset Hstep.
  destruct (step_at_Some i s s' Hstep) as (r & c & c' & sh' & Hi & Hpc & ->).
  cbn [threads]. destruct (String.eqb ref r) eqn:Href.
  - apply String.eqb_eq in Href as <-.
    assert (Hc : unchecked c = false).
    { destruct (unchecked c) eqn:Hc; [|done].
      pose proof (count_pc_pos unchecked ref (threads s) i c Hi Hc). lia. }
    destruct (pc_step_unchecked i ref c (shared s) c' sh' Hpc Hc) as [Hc' Hins].
    rewrite !(count_pc_step _ ref (threads s) i ref c c' Hi); auto.
    right. congruence.
  - rewrite !(count_pc_step _ ref (threads s) i r c c' Hi); auto.
Qed.

Lemma settled_run sched s ref :
  count_pc unchecked ref (threads s) = 0 ->
  count_pc inserted ref (threads (run_schedule sched s))
  = count_pc inserted ref (threads s).
Proof.
  revert s. induction sched as [|i sched IH]; intros s Hset; [done|].
  cbn [run_schedule foldl]. fold (run_schedule sched (default s (step_at i s))).
  destruct (step_at i s) as [s1|] eqn:Hstep; cbn [default]; [|by apply IH].
  destruct (settled_step i s s1 ref Hset Hstep) as [Hset1 Hins].
  by rewrite IH.
Qed.

Lemma all_returned_lookup s i r c :
  all_returned s = true -> threads s !! i = Some (r, c) -> returned c = true.
Proof.
  unfold all_returned. generalize (threads s). intros ts. revert i.
  induction ts as [|[r0 c0] ts IH]; intros [|i] Hall Hi; simplify_eq/=.
  - by apply andb_prop in Hall as [? _].
  - apply andb_prop in Hall as [_ Hall]. eauto.
Qed.

Lemma not_all_returned s :
  all_returned s = false ->
  exists i r c, threads s !! i = Some (r, c) /\ returned c = false.
Proof.
  unfold all_returned. generalize (threads s). intros ts.
  induction ts as [|[r0 c0] ts IH]; [done|]. cbn [forallb snd].
  destruct (returned c0) eqn:Hc0; cbn [andb].
  - intros Hall. destruct (IH Hall) as (i & r & c & Hi & Hc).
    by exists (S i), r, c.
  - intros _. by exists 0, r0, c0.
Qed.

(** Once all requests have returned, those that pulled are those that
    inserted an entry. *)
Lemma returned_pulls s ref :
  all_returned s = true ->
  count_pc has_issued ref (threads s) = count_pc inserted ref (threads s).
Proof.
  intros Hall. apply count_pc_ext. intros i r c Hi.
  pose proof (all_returned_lookup s i r c Hall Hi). by destruct c.
Qed.

(** No reachable state is stuck: while a request has not returned, some
    request can step. *)
Lemma progress present0 s :
  inv present0 s -> all_returned s = false ->
  exists i s', step_at i s = Some s'.
Proof.
  intros Hinv Hall.
  destruct (not_all_returned s Hall) as (i & r & c & Hi & Hc).
  assert (Hgo : forall j r0 c0 c' sh',
             threads s !! j = Some (r0, c0) ->
             pc_step j r0 c0 (shared s) = Some (c', sh') ->
             exists i s', step_at i s = Some s').
  { intros j r0 c0 c' sh' Hj Hpc. exists j. unfold step_at.
    rewrite Hj, Hpc. eauto. }
  destruct c; try done.
  - destruct (bool_decide (r ∈ present (shared s))) eqn:Hp;
      eapply (Hgo i r Called); [done|cbn; by rewrite Hp|done|cbn; by rewrite Hp].
  - destruct (pulls (shared s) !! r) eqn:Hp;
      eapply (Hgo i r AtLock); [done|cbn; by rewrite Hp|done|cbn; by rewrite Hp].
  - by eapply (Hgo i r Registered).
  - by eapply (Hgo i r Pulling).
  - by eapply (Hgo i r Pulled).
  - by eapply (Hgo i r Signalled).
  - destruct (bool_decide (signal ∈ closed (shared s))) eqn:Hsig.
    + eapply (Hgo i r (Waiting signal)); [done|cbn; by rewrite Hsig].
    + apply bool_decide_eq_false in Hsig.
      destruct (inv_waiting _ _ Hinv i r signal Hi) as (c0 & Hj & Hc0).
      destruct c0 as [| | | | | | |[]]; try done.
      * by eapply (Hgo signal r Registered).
      * by eapply (Hgo signal r Pulling).
      * by eapply (Hgo signal r Pulled).
      * destruct Hsig. by eapply (inv_closed _ _ Hinv signal r Signalled).
      * destruct Hsig. by eapply (inv_closed _ _ Hinv signal r (Returned true)).
Qed.

(** Every reachable state can be run to the end. *)
Lemma completes present0 n : forall s,
  inv present0 s -> work (threads s) <= n ->
  exists sched, all_returned (run_schedule sched s) = true.
Proof.
  induction n as [|n IH]; intros s Hinv Hwork.
  - destruct (all_returned s) eqn:Hall; [by exists []|].
    destruct (progress present0 s Hinv Hall) as (i & s1 & Hstep).
    pose proof (step_at_work i s s1 Hstep). lia.
  - destruct (all_returned s) eqn:Hall; [by exists []|].
    destruct (progress present0 s Hinv Hall) as (i & s1 & Hstep).
    pose proof (step_at_work i s s1 Hstep).
    destruct (IH s1) as [sched Hdone]; [by eapply inv_step|lia|].
    exists (i :: sched). cbn [run_schedule foldl]. by rewrite Hstep.
Qed.

(** When all requests have returned, a reference that was not present
    and was requested has been pulled. *)
Lemma returned_pulled present0 s ref :
  inv present0 s -> all_returned s = true ->
  ref ∉ present0 -> 0 < callers ref s ->
  1 <= count_pc inserted ref (threads s).
Proof.
  intros Hinv Hall Hnew Hcall.
  destruct (count_pc_exists _ ref (threads s) Hcall) as (j & c & Hj & _).
  pose proof (all_returned_lookup s j ref c Hall Hj) as Hc.
  destruct c as [| | | | | | |[]]; try done.
  - exact (count_pc_pos inserted ref (threads s) j (Returned true) Hj eq_refl).
  - destruct (inv_skipped _ _ Hinv j ref Hj); [done|lia].
Qed.




End PullCoordinatorFacts.

(** ** Builders running [from] of [verbs.go] side by side *)

Module ConcurrentFacts.
Import Verbs Concurrent.

(** Two builders call [from "alpine"]; each is scheduled up to its call
    of [ImagePull], then each makes the call. *)
Example two_builders_in_flight :
  let s := run_schedule onlineClient demoUnmarshal [0; 1; 0; 1]
             (start 2 [MrbString "alpine"] (bld (demoWorld ""))) in
  forallb in_flight (threads s) = true
  /\ pulls_issued "alpine" (issued (proc s)) = 2.
Proof. by vm_compute. Qed.

Section Interleaving.
Variable C : Client.
Variable Unmarshal : string -> string -> string.

Lemma process_of_world_of b p : process_of (world_of b p) p = p.
Proof. by destruct p. Qed.

Lemma world_of_process_of w p : world_of (bld w) (process_of w p) = w.
Proof. by destruct w. Qed.

Lemma thread_run_S n t p :
  thread_run C Unmarshal (S n) t p
  = match from_step C Unmarshal t p with
    | Some (t', p') => thread_run C Unmarshal n t' p'
    | None => (t, p)
    end.
Proof. done. Qed.

(** The read loop, step by step, prints what [read_progress] prints. *)
Lemma thread_run_read a0 ls fin b p :
  thread_run C Unmarshal (S (length ls)) (AtRead a0 ls fin, b) p
  = ((Finished (read_result a0 fin), b),
     process_of (read_progress Unmarshal ls fin (world_of b p)).2 p).
Proof.
  revert p. induction ls as [|l ls IH]; intros p.
  - cbn [length thread_run from_step read_progress snd].
    rewrite process_of_world_of. by destruct fin.
  - cbn [length]. rewrite thread_run_S. cbn [from_step].
    by rewrite IH.
Qed.

(** A goroutine left to itself computes what the function [from]
    computes. *)
Lemma thread_run_from args b p :
  exists n,
    thread_run C Unmarshal n (AtEntry args, b) p
    = ((Finished (from C Unmarshal args (world_of b p)).1,
        bld (from C Unmarshal args (world_of b p)).2),
       process_of (from C Unmarshal args (world_of b p)).2 p).
Proof.
  destruct args as [|a0 rest].
  - exists 1. cbn. by rewrite process_of_world_of.
  - exists (3 + length (lines
              match ImagePull C (mrb_String a0) with
              | inl reader => reader
              | inr _ => {| lines := []; read_err := None |}
              end)).
    cbn [Nat.add]. rewrite thread_run_S. cbn [from_step].
    rewrite thread_run_S. cbn [from_step].
    rewrite VerbsFacts.from_cons. cbn zeta.
    cbn [bld upd_config with_bld set_config set_imageID imageID world_of].
    destruct (ImagePull C (mrb_String a0)) as [reader|e]; [|done].
    rewrite thread_run_read. cbn [fst snd].
    destruct (VerbsFacts.read_progress_frame Unmarshal (lines reader)
                (read_err reader)
                (record (CallImagePull (mrb_String a0))
                   (upd_config set_attach
                      (with_bld (set_imageID (mrb_String a0) b) (world_of b p)))))
      as (_ & Hbld & _).
    by rewrite Hbld.
Qed.

Lemma pulls_issued_cons ref c cs :
  pulls_issued ref (c :: cs)
  = match c with
    | CallImagePull r =>
        if String.eqb r ref then S (pulls_issued ref cs) else pulls_issued ref cs
    | _ => pulls_issued ref cs
    end.
Proof.
  unfold pulls_issued. cbn [List.filter].
  destruct c; try done. by destruct (String.eqb _ _).
Qed.

(** One step of one goroutine: the count of pulls grows exactly when
    the goroutine passes its call of [ImagePull]. *)
Lemma from_step_inv ref t p t' p' :
  thread_inv ref t ->
  from_step C Unmarshal t p = Some (t', p') ->
  thread_inv ref t'
  /\ pulls_issued ref (issued p') + issued_by t
     = pulls_issued ref (issued p) + issued_by t'.
Proof.
  destruct t as [c b]. unfold thread_inv, issued_by, from_step. cbn [fst snd].
  destruct c as [args|a0|a0 ls fin|r].
  - intros (a & rest & -> & Href) [= <- <-]. subst ref.
    cbn -[pulls_issued]. split; [done | lia].
  - intros Href Hstep.
    destruct (ImagePull C (imageID b)); simplify_eq; cbn -[pulls_issued];
      rewrite pulls_issued_cons, String.eqb_refl;
      (split; [eauto | lia]).
  - intros _ Hstep. destruct ls as [|l ls].
    + destruct fin; simplify_eq; cbn -[pulls_issued]; eauto.
    + simplify_eq. cbn -[pulls_issued]. done.
  - discriminate.
Qed.

Lemma sum_issued_insert (l : list thread) i t t' :
  l !! i = Some t ->
  sum_list (issued_by <$> <[i:=t']> l) + issued_by t
  = sum_list (issued_by <$> l) + issued_by t'.
Proof.
  revert i. induction l as [|x l IH]; intros [|i] Hi; simplify_eq/=; [lia|].
  specialize (IH i Hi). lia.
Qed.

Lemma sys_inv_start n a rest b :
  sys_inv (mrb_String a) n (start n (a :: rest) b).
Proof.
  unfold sys_inv, start. cbn [threads proc issued].
  split; [|split].
  - apply Forall_replicate. unfold thread_inv. cbn. eauto.
  - apply length_replicate.
  - induction n as [|n IH]; [done|]. cbn. by rewrite <- IH.
Qed.

Lemma sys_inv_step ref n s s' :
  sys_inv ref n s -> sys_step C Unmarshal s s' -> sys_inv ref n s'.
Proof.
  intros (Hall & Hlen & Hcount) Hsys.
  inversion Hsys as [i s1 s2 Hstep]; subst s1 s2.
  unfold sys_step_at in Hstep.
  destruct (threads s !! i) as [t|] eqn:Hi; [|done].
  destruct (from_step C Unmarshal t (proc s)) as [[t' p']|] eqn:Ht; [|done].
  simplify_eq. unfold sys_inv. cbn [threads proc].
  destruct (from_step_inv ref t (proc s) t' p') as (Hinv & Hc); [|done|].
  { by eapply Forall_lookup_1. }
  split; [|split].
  - by apply Forall_insert.
  - by rewrite length_insert.
  - pose proof (sum_issued_insert (threads s) i t t' Hi). lia.
Qed.

Lemma sys_inv_rtc ref n s s' :
  sys_inv ref n s -> rtc (sys_step C Unmarshal) s s' -> sys_inv ref n s'.
Proof. induction 2; eauto using sys_inv_step. Qed.

Lemma sum_issued_finished (l : list thread) :
  forallb finished l = true -> sum_list (issued_by <$> l) = length l.
Proof.
  induction l as [|[c b] l IH]; [done|].
  cbn [forallb fmap list_fmap sum_list length]. unfold finished at 1.
  unfold issued_by at 1. cbn [fst].
  destruct c; try done. intros Hl. cbn [andb] in Hl.
  change (sum_list_with id (list_fmap _ _ issued_by l))
    with (sum_list (issued_by <$> l)).
  by rewrite IH.
Qed.

(** A schedule is one of the interleavings. *)
Lemma run_schedule_rtc sched s :
  rtc (sys_step C Unmarshal) s (run_schedule C Unmarshal sched s).
Proof.
  revert s. induction sched as [|i sched IH]; intros s; [done|].
  cbn [run_schedule foldl].
  destruct (sys_step_at C Unmarshal i s) as [s1|] eqn:Hstep; cbn [default].
  - eapply rtc_l; [by econstructor | apply IH].
  - apply IH.
Qed.

(** X22: the [from] of [verbs.go] is not coordinated: however [n]
    builders that call it with the same reference are interleaved, once
    all of them have left [from] the runtime has been asked for one pull
    per builder. *)
Theorem uncoordinated_from_pulls_per_builder n a rest b s :
  rtc (sys_step C Unmarshal) (start n (a :: rest) b) s ->
  forallb finished (threads s) = true ->
  pulls_issued (mrb_String a) (issued (proc s)) = n.
Proof.
  intros Hsteps Hdone.
  destruct (sys_inv_rtc (mrb_String a) n _ s (sys_inv_start n a rest b) Hsteps)
    as (_ & Hlen & Hcount).
  by rewrite Hcount, sum_issued_finished.
Qed.

End Interleaving.

(** Two builders, [from "alpine"], interleaved to completion: two pulls. *)
Lemma two_builders_pull_twice :
  let s := run_schedule onlineClient demoUnmarshal [0; 1; 0; 1; 0; 1; 0; 1; 0; 1]
             (start 2 [MrbString "alpine"] (bld (demoWorld ""))) in
  pulls_issued "alpine" (issued (proc s)) = 2.
Proof.
  cbv zeta.
  apply (uncoordinated_from_pulls_per_builder onlineClient demoUnmarshal 2
           (MrbString "alpine") [] (bld (demoWorld ""))).
  - apply run_schedule_rtc.
  - by vm_compute.
Defined.

End ConcurrentFacts.

(** * Further properties of the code *)

(** ** Cache keys *)

Module KeyFacts.
Import base64 base64_decode.

Lemma lor_shiftl_add (x y k : N) :
  (y < 2 ^ k)%N -> N.lor (N.shiftl x k) y = (x * 2 ^ k + y)%N.
Proof.
  intros Hy. rewrite <- N.shiftl_mul_pow2.
  assert (Hland : N.land (N.shiftl x k) y = 0%N).
  { apply N.bits_inj_0. intros n. rewrite N.land_spec.
    destruct (N.ltb_spec n k) as [Hlt|Hge].
    - by rewrite N.shiftl_spec_low.
    - destruct (N.eq_dec y 0%N) as [->|Hy0].
      + by rewrite N.bits_0, andb_false_r.
      + rewrite (N.bits_above_log2 y n), andb_false_r; [done|].
        apply N.log2_lt_pow2 in Hy; lia. }
  rewrite <- N.lxor_lor by done. symmetry. by apply N.add_nocarry_lxor.
Qed.

(** The 24-bit group of three bytes, as a number. *)
Lemma group_value (a b c : N) :
  (a < 256 -> b < 256 -> c < 256 ->
   N.lor (N.lor (N.shiftl a 16) (N.shiftl b 8)) c = a * 65536 + b * 256 + c)%N.
Proof.
  intros Ha Hb Hc.
  transitivity (N.lor (N.shiftl (a * 256 + b) 8) c).
  - f_equal. rewrite (N.shiftl_mul_pow2 b 8), lor_shiftl_add, N.shiftl_mul_pow2.
    + change (2 ^ 16)%N with 65536%N. change (2 ^ 8)%N with 256%N. lia.
    + change (2 ^ 16)%N with 65536%N. change (2 ^ 8)%N with 256%N. lia.
  - rewrite lor_shiftl_add; change (2 ^ 8)%N with 256%N; lia.
Qed.

(** A six-bit field of a number. *)
Lemma sextet (val k : N) :
  N.land (N.shiftr val k) 63 = ((val / 2 ^ k) mod 64)%N.
Proof.
  rewrite N.shiftr_div_pow2. change 63%N with (N.ones 6).
  by rewrite N.land_ones.
Qed.

Lemma sextets_recombine (val : N) :
  (val < 16777216 ->
   quantum ((val / 262144) mod 64) ((val / 4096) mod 64)
     ((val / 64) mod 64) (val mod 64) = val)%N.
Proof.
  intros Hv. unfold quantum.
  replace 262144%N with (64 * 64 * 64)%N by done.
  replace 4096%N with (64 * 64)%N by done.
  rewrite <- !N.Div0.div_div.
  pose proof (N.Div0.div_mod val 64).
  pose proof (N.Div0.div_mod (val / 64) 64).
  pose proof (N.Div0.div_mod (val / 64 / 64) 64).
  pose proof (N.Div0.div_mod (val / 64 / 64 / 64) 64).
  pose proof (N.mod_lt val 64).
  pose proof (N.mod_lt (val / 64) 64).
  pose proof (N.mod_lt (val / 64 / 64) 64).
  pose proof (N.mod_lt (val / 64 / 64 / 64) 64).
  generalize dependent (val mod 64)%N.
  generalize dependent ((val / 64) mod 64)%N.
  generalize dependent ((val / 64 / 64) mod 64)%N.
  generalize dependent ((val / 64 / 64 / 64) mod 64)%N.
  generalize dependent (val / 64 / 64 / 64 / 64)%N.
  generalize dependent (val / 64 / 64 / 64)%N.
  generalize dependent (val / 64 / 64)%N.
  generalize dependent (val / 64)%N.
  intros. lia.
Qed.

Lemma bytes_split (a b c : N) :
  (a < 256 -> b < 256 -> c < 256 ->
   let val := a * 65536 + b * 256 + c in
   val / 65536 = a /\ (val / 256) mod 256 = b /\ val mod 256 = c
   /\ val < 16777216)%N.
Proof.
  intros Ha Hb Hc. cbv zeta.
  set (val := (a * 65536 + b * 256 + c)%N).
  assert (Hq : (val / 256 = a * 256 + b)%N).
  { symmetry. apply (N.div_unique val 256 _ c); [done | subst val; lia]. }
  split; [|split; [|split]].
  - symmetry. apply (N.div_unique val 65536 _ (b * 256 + c)); subst val; lia.
  - rewrite Hq. symmetry. apply (N.mod_unique _ 256 a b); [done | lia].
  - symmetry. apply (N.mod_unique val 256 (a * 256 + b) c); [done | subst val; lia].
  - subst val. lia.
Qed.

(** Every six-bit value is written as a character of the alphabet that
    is not the padding character and reads back as the value. *)
Lemma decode_encode_char (i : N) :
  (i < 64)%N ->
  decode_char (encode i) = Some i /\ Ascii.eqb (encode i) padChar = false.
Proof.
  intros Hi.
  assert (Hall : forallb (fun n =>
            match decode_char (encode (N.of_nat n)) with
            | Some j => N.eqb j (N.of_nat n)
            | None => false
            end && negb (Ascii.eqb (encode (N.of_nat n)) padChar))
          (seq 0 64) = true) by (by vm_compute).
  rewrite forallb_forall in Hall.
  assert (Hin : In (N.to_nat i) (seq 0 64)) by (apply in_seq; lia).
  specialize (Hall _ Hin). rewrite N2Nat.id in Hall.
  apply andb_prop in Hall as [H1 H2].
  destruct (decode_char (encode i)) as [j|]; [|done].
  apply N.eqb_eq in H1. subst j. split; [done|].
  by destruct (Ascii.eqb (encode i) padChar).
Qed.

Lemma Decode_group s1 s2 s3 s4 rest :
  (s1 < 64)%N -> (s2 < 64)%N -> (s3 < 64)%N -> (s4 < 64)%N ->
  Decode (encode s1 :: encode s2 :: encode s3 :: encode s4 :: rest)
  = match Decode rest with
    | Some bs =>
        let v := quantum s1 s2 s3 s4 in
        Some ((v / 65536)%N :: ((v / 256) mod 256)%N :: (v mod 256)%N :: bs)
    | None => None
    end.
Proof.
  intros H1 H2 H3 H4. cbn [Decode].
  destruct (decode_encode_char s1 H1) as [-> _].
  destruct (decode_encode_char s2 H2) as [-> _].
  destruct (decode_encode_char s3 H3) as [-> ->].
  by destruct (decode_encode_char s4 H4) as [-> ->].
Qed.

Lemma Decode_pad1 s1 s2 s3 :
  (s1 < 64)%N -> (s2 < 64)%N -> (s3 < 64)%N ->
  Decode [encode s1; encode s2; encode s3; padChar]
  = Some [(quantum s1 s2 s3 0 / 65536)%N;
          ((quantum s1 s2 s3 0 / 256) mod 256)%N].
Proof.
  intros H1 H2 H3. cbn [Decode].
  destruct (decode_encode_char s1 H1) as [-> _].
  destruct (decode_encode_char s2 H2) as [-> _].
  by destruct (decode_encode_char s3 H3) as [-> ->].
Qed.

Lemma Decode_pad2 s1 s2 :
  (s1 < 64)%N -> (s2 < 64)%N ->
  Decode [encode s1; encode s2; padChar; padChar]
  = Some [(quantum s1 s2 0 0 / 65536)%N].
Proof.
  intros H1 H2. cbn [Decode].
  destruct (decode_encode_char s1 H1) as [-> _].
  by destruct (decode_encode_char s2 H2) as [-> _].
Qed.

(** The characters written for a group are the four six-bit fields of
    its value. *)
Lemma Encode_group a b c rest :
  (a < 256)%N -> (b < 256)%N -> (c < 256)%N ->
  let val := (a * 65536 + b * 256 + c)%N in
  Encode (a :: b :: c :: rest)
  = encode ((val / 262144) mod 64) :: encode ((val / 4096) mod 64)
    :: encode ((val / 64) mod 64) :: encode (val mod 64) :: Encode rest.
Proof.
  intros Ha Hb Hc. cbn [Encode]. cbv zeta.
  rewrite group_value by done. rewrite !sextet.
  change 63%N with (N.ones 6). by rewrite N.land_ones.
Qed.

Lemma Encode_one a :
  (a < 256)%N ->
  let val := (a * 65536)%N in
  Encode [a]
  = [encode ((val / 262144) mod 64); encode ((val / 4096) mod 64);
     padChar; padChar]
  /\ quantum ((val / 262144) mod 64) ((val / 4096) mod 64) 0 0 = val.
Proof.
  intros Ha. cbv zeta. split.
  - cbn [Encode]. cbv zeta. rewrite !sextet.
    by rewrite N.shiftl_mul_pow2.
  - pose proof (sextets_recombine (a * 65536)) as Hrec.
    assert (H4 : ((a * 65536) mod 64 = 0)%N).
    { replace (a * 65536)%N with (a * 1024 * 64)%N by lia.
      apply N.Div0.mod_mul. }
    assert (H3 : ((a * 65536 / 64) mod 64 = 0)%N).
    { replace (a * 65536)%N with (a * 1024 * 64)%N by lia.
      rewrite N.div_mul by done.
      replace (a * 1024)%N with (a * 16 * 64)%N by lia.
      apply N.Div0.mod_mul. }
    rewrite H3, H4 in Hrec. apply Hrec. lia.
Qed.

Lemma Encode_two a b :
  (a < 256)%N -> (b < 256)%N ->
  let val := (a * 65536 + b * 256)%N in
  Encode [a; b]
  = [encode ((val / 262144) mod 64); encode ((val / 4096) mod 64);
     encode ((val / 64) mod 64); padChar]
  /\ quantum ((val / 262144) mod 64) ((val / 4096) mod 64)
       ((val / 64) mod 64) 0 = val.
Proof.
  intros Ha Hb. cbv zeta. split.
  - cbn [Encode]. cbv zeta. rewrite !sextet.
    pose proof (group_value a b 0 Ha Hb) as Hg.
    rewrite N.lor_0_r, N.add_0_r in Hg by done. by rewrite Hg.
  - pose proof (sextets_recombine (a * 65536 + b * 256)) as Hrec.
    assert (H4 : ((a * 65536 + b * 256) mod 64 = 0)%N).
    { replace (a * 65536 + b * 256)%N with ((a * 1024 + b * 4) * 64)%N by lia.
      apply N.Div0.mod_mul. }
    rewrite H4 in Hrec. apply Hrec. lia.
Qed.

(** Decoding reads back what was encoded. *)
Lemma Decode_Encode (src : list N) :
  Forall (fun x => (x < 256)%N) src -> Decode (Encode src) = Some src.
Proof.
  assert (H : forall n (l : list N), length l <= n ->
                Forall (fun x => (x < 256)%N) l -> Decode (Encode l) = Some l).
  { induction n as [|n IH]; intros [|a [|b [|c rest]]] Hl Hall; try done;
      cbn [length] in Hl; try lia.
    - clear IH. apply Forall_cons in Hall as [Ha _].
      destruct (Encode_one a Ha) as [-> Hq].
      rewrite Decode_pad2 by (apply N.mod_lt; done). rewrite Hq.
      by rewrite N.div_mul.
    - clear IH. apply Forall_cons in Hall as [Ha Hall].
      apply Forall_cons in Hall as [Hb _].
      destruct (Encode_two a b Ha Hb) as [-> Hq].
      rewrite Decode_pad1 by (apply N.mod_lt; done). rewrite Hq.
      destruct (bytes_split a b 0 Ha Hb) as (Hd & Hm & _); [done|].
      rewrite N.add_0_r in Hd, Hm. by rewrite Hd, Hm.
    - apply Forall_cons in Hall as [Ha Hall].
      apply Forall_cons in Hall as [Hb Hall].
      apply Forall_cons in Hall as [Hc Hall].
      rewrite Encode_group by done. cbv zeta.
      destruct (bytes_split a b c Ha Hb Hc) as (Hq & Hm & Hr & Hv).
      rewrite Decode_group by (apply N.mod_lt; done).
      rewrite IH by (done || lia). cbv zeta.
      rewrite sextets_recombine by done. by rewrite Hq, Hm, Hr. }
  intros Hall. by apply (H (length src)).
Qed.

(** The encoder is injective on strings. *)
Lemma EncodeToString_inj (s t : string) :
  EncodeToString s = EncodeToString t -> s = t.
Proof.
  unfold EncodeToString, bytes. intros Heq.
  apply (f_equal list_ascii_of_string) in Heq.
  rewrite !list_ascii_of_string_of_list_ascii in Heq.
  apply (f_equal Decode) in Heq.
  assert (Hb : forall u, Forall (fun x => (x < 256)%N)
                           (map N_of_ascii (list_ascii_of_string u))).
  { intros u. induction (list_ascii_of_string u) as [|c l IH]; cbn [map];
      constructor; [apply N_ascii_bounded | done]. }
  rewrite !Decode_Encode in Heq by apply Hb.
  injection Heq as Heq.
  assert (Hback : forall l : list ascii, map ascii_of_N (map N_of_ascii l) = l).
  { induction l as [|c l IH]; [done|]. cbn [map].
    by rewrite ascii_N_embedding, IH. }
  apply (f_equal (map ascii_of_N)) in Heq. rewrite !Hback in Heq.
  apply (f_equal string_of_list_ascii) in Heq.
  by rewrite !string_of_list_ascii_of_string in Heq.
Qed.


Lemma Join_insert_separator sep name pre x y post :
  Join (name :: pre ++ (x +:+ sep +:+ y) :: post) sep
  = Join (name :: pre ++ x :: y :: post) sep.
Proof.
  cbn [Join]. rewrite !fold_left_app. cbn [fold_left].
  by rewrite <- !append_assoc.
Qed.

(** X1: two steps get the same cache key exactly when the verb's name
    and the renderings of the arguments, joined by a comma and a space,
    are the same string: the encoding loses nothing. *)
Theorem cacheKey_eq_iff name args name' args' :
  EncodeToString (Join (name :: Core.extractStringArgs args) ", ")
  = EncodeToString (Join (name' :: Core.extractStringArgs args') ", ")
  <-> Join (name :: map mrb_String args) ", "
      = Join (name' :: map mrb_String args') ", ".
Proof.
  unfold Core.extractStringArgs. split.
  - apply EncodeToString_inj.
  - by intros ->.
Qed.

(** X2: the key does not tell where one argument ends and the next one
    begins: an argument that contains a comma and a space gets the key
    of the two arguments it splits into. *)
Theorem cacheKey_joins_arguments name pre x y post :
  EncodeToString
    (Join (name :: Core.extractStringArgs
                     (pre ++ MrbString (x +:+ ", " +:+ y) :: post)) ", ")
  = EncodeToString
      (Join (name :: Core.extractStringArgs
                       (pre ++ MrbString x :: MrbString y :: post)) ", ").
Proof.
  unfold Core.extractStringArgs. f_equal.
  rewrite !map_app. cbn [map mrb_String]. apply Join_insert_separator.
Qed.

End KeyFacts.

(** ** The step wrapper, construction and context *)

Module WrapperFacts.
Import Core Setup.

Section Wrapper.
Context {St : Type} (E : Executor St) (Getenv : string -> string).
Variable exec_SetContext : Context -> St -> St.

(** X3: when the context is done the wrapper returns at once, with the
    context's error as an exception if it has one and with (nil, nil)
    otherwise; nothing is logged, the cache is not probed and the handler
    is not invoked. *)
Theorem wrapVerbFunc_cancelled_returns name vd args (w : World St) :
  ctx_Done (Context_ (config (bld w))) = true ->
  wrapVerbFunc E Getenv name vd args w
  = ((None, createException <$> ctx_Err (Context_ (config (bld w)))), w).
Proof.
  intros Hctx. unfold wrapVerbFunc. rewrite Hctx.
  by destruct (ctx_Err _).
Qed.

(** X4: when the cache probe fails, its error is returned as an
    exception and the handler is not invoked, whatever the probe says
    about a hit and also for the verb debug; the executor is left as the
    probe left it. *)
Theorem wrapVerbFunc_probe_error name vd args (w : World St) cached e s :
  ctx_Done (Context_ (config (bld w))) = false ->
  CheckCache E (fingerprint name args) (exec (heap (bld w)))
    = ((cached, Some e), s) ->
  let out := wrapVerbFunc E Getenv name vd args w in
  out.1 = (None, Some (createException e))
  /\ bld out.2 = set_exec s (bld w)
  /\ handler_calls (trace out.2) = handler_calls (trace w).
Proof.
  intros Hctx Hprobe. cbn zeta.
  rewrite CoreFacts.wrapVerbFunc_unfold by done. cbn zeta. rewrite Hprobe.
  cbn [fst snd].
  by destruct (String.eqb (Getenv "BOX_DEBUG") "").
Qed.

(** X5: past the cancellation probe the wrapper acts in a fixed order:
    it logs the step with the joined renderings of the arguments, dumps
    the configuration when BOX_DEBUG is set, probes the cache with the
    key, and only then, on a miss or for debug and when the probe did not
    fail, invokes the handler. *)
Theorem wrapVerbFunc_event_order name vd args (w : World St) :
  ctx_Done (Context_ (config (bld w))) = false ->
  let key := fingerprint name args in
  let probe := (CheckCache E key (exec (heap (bld w)))).1 in
  let handler :=
    match probe.2 with
    | Some _ => []
    | None =>
        if negb probe.1 || String.eqb name "debug"
        then [EvVerbFunc name key] else []
    end in
  let dump :=
    if String.eqb (Getenv "BOX_DEBUG") "" then []
    else [EvPrintln (ConfigJSON E (exec (heap (bld w))))] in
  trace (wrapVerbFunc E Getenv name vd args w).2
  = (handler ++ [EvCheckCache key] ++ dump
     ++ [EvBuildStep name (Join (map mrb_String args) ", ")] ++ trace w)%list.
Proof.
  intros Hctx. cbn zeta.
  rewrite CoreFacts.wrapVerbFunc_unfold by done. cbn zeta.
  destruct (CheckCache E _ _) as [[cached err] s]. cbn [fst snd].
  destruct (String.eqb (Getenv "BOX_DEBUG") ""), err as [e|]; try done;
    by destruct (negb cached || String.eqb name "debug").
Qed.

(** X6: [SetContext] replaces the context the wrapper consults and hands
    it to the executor, leaving the rest of the builder alone; once a
    done context is set, every wrapped verb is refused with the
    context's error, without running its handler. *)
Theorem SetContext_refuses_verbs ctx (w : World St) :
  ctx_Done ctx = true ->
  let b' := SetContext exec_SetContext ctx (bld w) in
  Context_ (config b') = ctx
  /\ exec (heap b') = exec_SetContext ctx (exec (heap (bld w)))
  /\ (result b', afterFunc (heap b'), Globals (config b'),
      Runner (config b'), FileName (config b'))
     = (result (bld w), afterFunc (heap (bld w)), Globals (config (bld w)),
        Runner (config (bld w)), FileName (config (bld w)))
  /\ forall name vd args,
       wrapVerbFunc E Getenv name vd args (with_bld b' w)
       = ((None, createException <$> ctx_Err ctx), with_bld b' w).
Proof.
  intros Hdone. cbn zeta. repeat split.
  intros name vd args. unfold wrapVerbFunc.
  cbn [bld with_bld SetContext config Context_]. rewrite Hdone.
  by destruct (ctx_Err ctx).
Qed.

End Wrapper.

Lemma keep_spec {St : Type} (b : Builder St) name :
  keep b name = false <-> name ∈ OmitFuncs (Globals (config b)).
Proof.
  unfold keep. rewrite negb_false_iff, existsb_exists, list_elem_of_In. split.
  - intros (x & Hin & ->%String.eqb_eq). done.
  - intros Hin. exists name. by rewrite String.eqb_refl.
Qed.

(** What a loop of [NewBuilder] leaves under each name. *)
Lemma define_all_lookup {St D : Type} (keepf : string -> bool)
    (mk : string -> D -> Method St) (table : gmap string D)
    (methods : gmap string (Method St)) name :
  define_all keepf mk table methods !! name
  = match table !! name with
    | Some def => if keepf name then Some (mk name def) else methods !! name
    | None => methods !! name
    end.
Proof.
  unfold define_all. revert name.
  apply (map_fold_weak_ind
           (fun r (m : gmap string D) => forall name,
              r !! name = match m !! name with
                          | Some def =>
                              if keepf name then Some (mk name def)
                              else methods !! name
                          | None => methods !! name
                          end)).
  - intros name. by rewrite lookup_empty.
  - intros i x m r Hi IH name.
    destruct (decide (i = name)) as [->|Hne].
    + rewrite lookup_insert_eq. specialize (IH name). rewrite Hi in IH.
      destruct (keepf name); [by rewrite lookup_insert_eq | done].
    + rewrite (lookup_insert_ne m) by done. rewrite <- IH.
      destruct (keepf i); [by rewrite lookup_insert_ne | done].
Qed.

Section Construction.
Context {St : Type}.
Variable NewDocker : Context -> Global -> St + string.
Variable Quote : string -> string.
Variable verbJumpTable : gmap string (verbDefinition St).
Variable funcJumpTable : gmap string (funcDefinition St).

(** X7: [NewBuilder] fails exactly when the docker executor cannot be
    made, with that error.  Otherwise no name of the omit list is
    defined on the interpreter, and every other name of the two jump
    tables is: as the helper function when the function table has it, as
    the wrapped verb otherwise.  Without globals nothing is omitted. *)
Theorem NewBuilder_defines_kept globals ctx runner fileName sw :
  let g := default {| OmitFuncs := []; TTY := false |} globals in
  match NewBuilder NewDocker Quote verbJumpTable funcJumpTable
          globals ctx runner fileName sw with
  | inr e => NewDocker ctx g = inr e
  | inl (b, methods, _) =>
      NewDocker ctx g = inl (exec (heap b))
      /\ config b = {| Globals := g; Context_ := ctx; Runner := runner;
                       FileName := fileName |}
      /\ forall name,
           methods !! name
           = if bool_decide (name ∈ OmitFuncs g) then None
             else match funcJumpTable !! name with
                  | Some fd => Some (PlainFunc fd)
                  | None => WrappedVerb name <$> verbJumpTable !! name
                  end
  end.
Proof.
  cbn zeta. unfold NewBuilder, NewExecutor. cbn zeta.
  change (String.eqb "docker" "docker") with true. cbn match.
  destruct (NewDocker ctx _) as [s|e]; [|done].
  split; [done|]. split; [done|]. intros name.
  rewrite !define_all_lookup, lookup_empty.
  match goal with |- context [keep ?b name] =>
    pose proof (keep_spec b name) as Hkeep; cbn [config Globals] in Hkeep;
    destruct (keep b name) eqn:Hk end.
  - rewrite bool_decide_eq_false_2.
    + destruct (funcJumpTable !! name); [done|].
      by destruct (verbJumpTable !! name).
    + intros Hin. apply Hkeep in Hin. congruence.
  - rewrite bool_decide_eq_true_2 by (apply Hkeep; reflexivity).
    by destruct (funcJumpTable !! name), (verbJumpTable !! name).
Qed.

End Construction.

(** A cancelled builder refuses [run "true"]. *)
Lemma wrapVerbFunc_cancelled_example :
  wrapVerbFunc demoExecutor demoGetenv "run" demoVerb [MrbString "true"]
    cancelledWorld
  = ((None, Some (createException "context canceled")), cancelledWorld).
Proof.
  exact (wrapVerbFunc_cancelled_returns demoExecutor demoGetenv "run" demoVerb
           [MrbString "true"] cancelledWorld eq_refl).
Defined.

(** A cache that cannot be read stops [debug] as well. *)
Lemma wrapVerbFunc_probe_error_example :
  let out := wrapVerbFunc brokenExecutor demoGetenv "debug" demoVerb []
               (demoWorld [] None) in
  out.1 = (None, Some (createException "cache unavailable"))
  /\ bld out.2 = set_exec [] (bld (demoWorld [] None))
  /\ handler_calls (trace out.2) = 0.
Proof.
  exact (wrapVerbFunc_probe_error brokenExecutor demoGetenv "debug" demoVerb []
           (demoWorld [] None) false "cache unavailable" [] eq_refl eq_refl).
Defined.

(** The events of a miss, newest first. *)
Lemma wrapVerbFunc_event_order_example :
  trace (wrapVerbFunc demoExecutor demoGetenv "run" demoVerb
           [MrbString "true"] (demoWorld [] None)).2
  = [EvVerbFunc "run" "cnVuLCB0cnVl"; EvCheckCache "cnVuLCB0cnVl";
     EvBuildStep "run" "true"].
Proof.
  exact (wrapVerbFunc_event_order demoExecutor demoGetenv "run" demoVerb
           [MrbString "true"] (demoWorld [] None) eq_refl).
Defined.

(** Setting the context of the cancelled builder on a fresh one. *)
Lemma SetContext_refuses_verbs_example :
  let ctx := {| ctx_Done := true; ctx_Err := Some "deadline exceeded" |} in
  let w := demoWorld [] None in
  let w' := with_bld (SetContext (fun _ s => s) ctx (bld w)) w in
  wrapVerbFunc demoExecutor demoGetenv "run" demoVerb [MrbString "true"] w'
  = ((None, Some (createException "deadline exceeded")), w').
Proof.
  cbv zeta.
  destruct (SetContext_refuses_verbs demoExecutor demoGetenv (fun _ s => s)
              {| ctx_Done := true; ctx_Err := Some "deadline exceeded" |}
              (demoWorld [] None) eq_refl) as (_ & _ & _ & H).
  exact (H "run" demoVerb [MrbString "true"]).
Defined.

End WrapperFacts.

(** ** Running scripts *)

Module RunFacts.
Import Core Setup.

Section Runs.
Context {St : Type} (E : Executor St) (M : Mrb St).
Variable ReadFile : string -> string + string.

(** X8: an error of the evaluation ends [RunScript] and [RunCode] at
    once: the error is the result's error, the configuration is not
    finalized into an image and the [after] hook is not invoked. *)
Theorem evaluation_error_short_circuits :
  (forall script (w : World St) e h,
     LoadString M script (heap (bld w)) = (Some e, h) ->
     let r := mkResult (FileName (config (bld w))) None (Some e) in
     RunScript E M script w
     = (r, {| bld := set_result r (set_heap h (bld w));
              trace := EvLoadString script :: trace w |}))
  /\ (forall val keep (w : World St) keep' res e h,
     RunWithContext M val keep (heap (bld w)) = ((keep', res, Some e), h) ->
     RunCode E M val keep w
     = ((mkResult (FileName (config (bld w))) res (Some e), keep'),
        after_RunWithContext res (Some e) h w)).
Proof.
  split.
  - intros script w e h Hload. cbn zeta. unfold RunScript. cbn zeta.
    cbn [bld with_bld set_result heap]. by rewrite Hload.
  - intros val keep w keep' res e h Hrun. unfold RunCode. cbn zeta.
    by rewrite Hrun.
Qed.

(** What [RunScript] returns is what it records. *)
Lemma RunScript_recorded script (w : World St) :
  (RunScript E M script w).1 = result (bld (RunScript E M script w).2).
Proof.
  unfold RunScript, call_MakeImage, call_Yield. cbn zeta.
  cbn [bld with_bld set_result heap].
  destruct (LoadString M script _) as [[e|] h]; [done|].
  cbn [bld with_bld emit set_heap set_exec heap exec afterFunc].
  destruct (MakeImage E _) as [[e|] s]; [done|].
  cbn [bld with_bld emit set_heap set_exec heap exec afterFunc].
  destruct (afterFunc h) as [f|]; [|done].
  by destruct (Yield M _ _) as [[e|] h'].
Qed.

(** X9: what [RunScript] and [RunCode] return is the result they record
    in the builder, the one [Result] reads afterwards, on every path;
    and [RunCode] hands back the stack hint of the evaluator as it got
    it. *)
Theorem returned_result_is_recorded :
  (forall script (w : World St),
     Result (RunScript E M script w).2 = (RunScript E M script w).1)
  /\ (forall val keep (w : World St),
     Result (RunCode E M val keep w).2 = (RunCode E M val keep w).1.1
     /\ (RunCode E M val keep w).1.2
        = (RunWithContext M val keep (heap (bld w))).1.1.1).
Proof.
  split.
  - intros script w. unfold Result. by rewrite RunScript_recorded.
  - intros val keep w. unfold Result, RunCode, call_MakeImage, call_Yield.
    cbn zeta.
    destruct (RunWithContext M val keep _) as [[[k res] [e|]] h]; [done|].
    destruct res as [v|]; [done|].
    cbn [bld with_bld emit set_heap set_exec set_result heap exec afterFunc].
    destruct (MakeImage E _) as [[e|] s]; [done|].
    cbn [bld with_bld emit set_heap set_exec set_result heap exec afterFunc].
    by destruct (Yield M _ _) as [[e|] h'].
Qed.

(** X10: when the script file cannot be read, [Run] returns the read
    error and closes the completion signal, but records nothing: the
    builder keeps the result it had, and that stale result is what
    [Wait] and [Result] hand out afterwards. *)
Theorem Run_unreadable_file (w : World St) e :
  ReadFile (FileName (config (bld w))) = inr e ->
  Runner (config (bld w)) = ChanOpen ->
  let out := Run E M ReadFile w in
  out.1 = Returns (mkResult (FileName (config (bld w))) None (Some e))
  /\ Result out.2 = result (bld w)
  /\ Wait out.2 = Some (result (bld w))
  /\ heap (bld out.2) = heap (bld w).
Proof.
  intros Hread Hopen. cbn zeta. unfold Run. cbn zeta.
  cbn [bld emit]. rewrite Hread. unfold deferred_close, Wait, Result.
  cbn [bld emit]. by rewrite Hopen.
Qed.

(** X11: when the script file is read, [Run] on an open completion
    signal returns the result of [RunScript]; [Wait], which would have
    blocked before, then hands out that same result. *)
Theorem Run_then_Wait (w : World St) script :
  ReadFile (FileName (config (bld w))) = inl script ->
  Runner (config (bld w)) = ChanOpen ->
  let out := Run E M ReadFile w in
  let w0 := emit (EvReadFile (FileName (config (bld w)))) w in
  Wait w = None
  /\ out.1 = Returns (RunScript E M script w0).1
  /\ Wait out.2 = Some (RunScript E M script w0).1
  /\ Result out.2 = (RunScript E M script w0).1.
Proof.
  intros Hread Hopen. cbn zeta. unfold Run. cbn zeta.
  cbn [bld emit]. rewrite Hread.
  destruct (CoreFacts.RunScript_frame E M script
              (emit (EvReadFile (FileName (config (bld w)))) w)) as [Hc _].
  pose proof (RunScript_recorded script
                (emit (EvReadFile (FileName (config (bld w)))) w)) as Hr.
  destruct (RunScript E M script _) as [r w1]. cbn [fst snd] in *.
  unfold deferred_close, Wait, Result. cbn [bld emit] in *.
  rewrite Hc, Hopen. cbn [close bld with_bld set_Runner config Runner].
  by subst r.
Qed.

(** X12: a builder runs once.  A second [Run] on the same builder
    panics when its deferred close meets the completion signal the first
    one closed. *)
Theorem Run_twice_panics (w : World St) :
  Runner (config (bld w)) = ChanOpen ->
  (Run E M ReadFile (Run E M ReadFile w).2).1
  = Panics "close of closed channel".
Proof.
  intros Hopen.
  assert (Hclosed : Runner (config (bld (Run E M ReadFile w).2)) = ChanClosed).
  { destruct (CoreFacts.Run_body E M ReadFile w) as (r & w1 & -> & Hc & _).
    unfold deferred_close. cbn zeta. cbn [bld emit]. by rewrite Hc, Hopen. }
  destruct (CoreFacts.Run_body E M ReadFile (Run E M ReadFile w).2)
    as (r & w1 & -> & Hc & _).
  unfold deferred_close. cbn zeta. cbn [bld emit]. by rewrite Hc, Hclosed.
Qed.

(** X13: unlike [RunScript], [RunCode] does not look whether an [after]
    hook is registered: when the evaluation gave no value and the image
    was finalized, it yields to the hook even if there is none, and what
    the interpreter answers to that decides the result. *)
Theorem RunCode_yields_without_hook val keep (w : World St) keep' h s :
  RunWithContext M val keep (heap (bld w)) = ((keep', None, None), h) ->
  afterFunc h = None ->
  MakeImage E (exec h) = (None, s) ->
  let out := RunCode E M val keep w in
  let answer := Yield M None {| exec := s; afterFunc := None |} in
  trace out.2 = EvYield None :: EvMakeImage :: EvRunWithContext :: trace w
  /\ Err out.1.1 = answer.1
  /\ heap (bld out.2) = answer.2.
Proof.
  intros Hrun Hf Hmake. cbn zeta.
  unfold RunCode, call_MakeImage, call_Yield. cbn zeta. rewrite Hrun.
  cbn [bld with_bld emit set_heap set_exec set_result heap exec afterFunc].
  rewrite Hmake.
  cbn [bld with_bld emit set_heap set_exec set_result heap exec afterFunc].
  rewrite Hf.
  by destruct (Yield M None _) as [[e|] h'].
Qed.

End Runs.

(** A builder whose script file is missing. *)
Lemma Run_unreadable_file_example :
  let w := demoWorld [] None in
  let out := Run demoExecutor demoMrb (fun _ => inr "no such file") w in
  out.1 = Returns (mkResult "box.rb" None (Some "no such file"))
  /\ Result out.2 = mkResult "" None None
  /\ Wait out.2 = Some (mkResult "" None None)
  /\ heap (bld out.2) = heap (bld w).
Proof.
  exact (Run_unreadable_file demoExecutor demoMrb (fun _ => inr "no such file")
           (demoWorld [] None) "no such file" eq_refl eq_refl).
Defined.

(** A builder whose script is read and evaluated. *)
Lemma Run_then_Wait_example :
  let out := Run demoExecutor demoMrb demoReadFile (demoWorld [] None) in
  Wait (demoWorld [] None) = None
  /\ out.1 = Returns (mkResult "box.rb" (Some (MrbString "sha256:demo")) None)
  /\ Wait out.2 = Some (mkResult "box.rb" (Some (MrbString "sha256:demo")) None)
  /\ Result out.2 = mkResult "box.rb" (Some (MrbString "sha256:demo")) None.
Proof.
  exact (Run_then_Wait demoExecutor demoMrb demoReadFile (demoWorld [] None)
           "from 'alpine'" eq_refl eq_refl).
Defined.

(** The second of two runs. *)
Lemma Run_twice_panics_example :
  (Run demoExecutor demoMrb demoReadFile
     (Run demoExecutor demoMrb demoReadFile (demoWorld [] None)).2).1
  = Panics "close of closed channel".
Proof.
  exact (Run_twice_panics demoExecutor demoMrb demoReadFile
           (demoWorld [] None) eq_refl).
Defined.

(** A compiled unit without value, on a builder without hook. *)
Lemma RunCode_yields_without_hook_example :
  let out := RunCode demoExecutor strictMrb (MrbProc "proc" 0) 0
               (demoWorld [] None) in
  trace out.2 = [EvYield None; EvMakeImage; EvRunWithContext]
  /\ Err out.1.1 = Some "no block given"
  /\ heap (bld out.2) = {| exec := []; afterFunc := None |}.
Proof.
  exact (RunCode_yields_without_hook demoExecutor strictMrb (MrbProc "proc" 0)
           0%Z (demoWorld [] None) 0%Z {| exec := []; afterFunc := None |} []
           eq_refl eq_refl eq_refl).
Defined.

End RunFacts.

(** ** The verbs, further *)

Module VerbsMore.
Import Verbs EnvEntries.

Section Verbs.
Variable C : Client.
Variable commit : option Hook -> World -> outcome (option string) * World.
Variable Yield : MrbValue -> MrbValue -> World -> (MrbValue + string) * World.
Variable Unmarshal : string -> string -> string.
Variable Quote : string -> string.
Variable F : Faults.

Lemma read_progress_stdout ls fin w :
  stdout (read_progress Unmarshal ls fin w).2
  = (rev (map (progress_line Unmarshal) ls) ++ stdout w)%list.
Proof.
  revert w. induction ls as [|l ls IH]; intros w; [done|].
  cbn [read_progress map rev]. rewrite IH. cbn [print stdout].
  by rewrite <- app_assoc.
Qed.

(** X14: once the pull has started, [from] prints one line per progress
    record of the stream, in the order of the stream and before anything
    else, also when reading the stream ends in an error; it returns its
    first argument when the stream ends and the read error otherwise. *)
Theorem from_prints_progress a0 rest w reader :
  ImagePull C (mrb_String a0) = inl reader ->
  let out := from C Unmarshal (a0 :: rest) w in
  stdout out.2
  = (rev (map (progress_line Unmarshal) (lines reader)) ++ stdout w)%list
  /\ out.1 = read_result a0 (read_err reader).
Proof.
  intros Hpull. cbn zeta. rewrite VerbsFacts.from_cons. cbn zeta.
  rewrite Hpull. cbn [fst snd]. by rewrite read_progress_stdout.
Qed.

(** X15: [from] looks at its first argument only.  Whether the pull
    succeeds or not, it leaves tty and the two attach flags switched on
    and touches nothing else of the configuration; a pull that cannot be
    started prints nothing. *)
Theorem from_flags_and_extra_args a0 rest w :
  let out := from C Unmarshal (a0 :: rest) w in
  let c := config (bld out.2) in
  out = from C Unmarshal [a0] w
  /\ (Tty c, AttachStdout c, AttachStderr c) = (true, true, true)
  /\ (Entrypoint c, Cmd c, Env c, User c, WorkingDir c)
     = (Entrypoint (config (bld w)), Cmd (config (bld w)),
        Env (config (bld w)), User (config (bld w)),
        WorkingDir (config (bld w)))
  /\ (insideDir (bld out.2), b_entrypoint (bld out.2), b_cmd (bld out.2))
     = (insideDir (bld w), b_entrypoint (bld w), b_cmd (bld w))
  /\ (forall e, ImagePull C (mrb_String a0) = inr e -> stdout out.2 = stdout w).
Proof.
  cbn zeta. rewrite !VerbsFacts.from_cons. cbn zeta.
  destruct (ImagePull C (mrb_String a0)) as [reader|e]; [|done].
  cbn [fst snd].
  match goal with |- context [read_progress Unmarshal ?ls ?fin ?w0] =>
    destruct (VerbsFacts.read_progress_frame Unmarshal ls fin w0)
      as (_ & -> & _) end.
  done.
Qed.

(** X16: a block-scoped verb called without its block panics on the
    missing argument after it has set the user, or the directory, which
    therefore stays set; called without any argument it panics before it
    changes anything. *)
Theorem scoped_verbs_without_block u w :
  withUser Yield [u] w
  = (Panics "index out of range", upd_config (set_User (mrb_String u)) w)
  /\ inside Yield [u] w
     = (Panics "index out of range",
        with_bld (set_insideDir (mrb_String u) (bld w)) w)
  /\ withUser Yield [] w = (Panics "index out of range", w)
  /\ inside Yield [] w = (Panics "index out of range", w).
Proof. done. Qed.

Lemma upd_Env_app l1 l2 w :
  upd_config (fun c => set_Env (Env c ++ l2) c)
    (upd_config (fun c => set_Env (Env c ++ l1) c) w)
  = upd_config (fun c => set_Env (Env c ++ (l1 ++ l2)) c) w.
Proof.
  unfold upd_config, with_bld, set_config, set_Env. cbn.
  by rewrite <- app_assoc.
Qed.

Lemma upd_Env_nil w : upd_config (fun c => set_Env (Env c ++ []) c) w = w.
Proof.
  destruct w as [[? ? ? ? []] ? ?].
  unfold upd_config, with_bld, set_config, set_Env. cbn.
  by rewrite app_nil_r.
Qed.

(** The loop of [env] on a hash, from any index on: it appends the
    entries of the keys it gets through, and gets through all of them
    unless an accessor fails, whose error it then returns. *)
Lemma env_loop_entries i kv m : forall k w,
  k + m = length (map fst kv) ->
  exists n r,
    env_loop F (MrbHash i kv) (map fst kv) (seq k m) w
    = (Returns r,
       upd_config
         (fun c => set_Env
            (Env c ++ map (fun key => mrb_String key +:+ "="
                                      +:+ mrb_String (hash_value kv key))
                        (take n (drop k (map fst kv))))
            c) w)
    /\ n <= m
    /\ (r = None -> n = m)
    /\ (forall e, r = Some e ->
         exists key,
           map fst kv !! (k + n) = Some key
           /\ (ArrayGet_err F (map fst kv) (k + n) = Some e
               \/ ArrayGet_err F (map fst kv) (k + n) = None
                  /\ Get_err F (MrbHash i kv) key = Some e))
    /\ ((forall j key, map fst kv !! j = Some key ->
           ArrayGet_err F (map fst kv) j = None
           /\ Get_err F (MrbHash i kv) key = None) -> r = None).
Proof.
  induction m as [|m IH]; intros k w Hlen.
  - exists 0, None. cbn [env_loop seq take map]. rewrite upd_Env_nil.
    split; [done|]. split; [lia|]. split; [done|]. split; [done|auto].
  - cbn [seq env_loop]. unfold Array_Get.
    destruct (lookup_lt_is_Some_2 (map fst kv) k ltac:(lia)) as [key Hkey].
    destruct (ArrayGet_err F (map fst kv) k) as [e|] eqn:Hget.
    { exists 0, (Some e). cbn [take map]. rewrite upd_Env_nil, Nat.add_0_r.
      split; [done|]. split; [lia|]. split; [done|]. split.
      - intros e' [= <-]. exists key. auto.
      - intros Hno. destruct (Hno k key Hkey) as [Hno1 _]. congruence. }
    rewrite Hkey. change (default MrbNil (Some key)) with key.
    cbn [Hash_Get].
    destruct (Get_err F (MrbHash i kv) key) as [e|] eqn:Hval.
    { exists 0, (Some e). cbn [take map]. rewrite upd_Env_nil, Nat.add_0_r.
      split; [done|]. split; [lia|]. split; [done|]. split.
      - intros e' [= <-]. exists key. auto.
      - intros Hno. destruct (Hno k key Hkey) as [_ Hno2]. congruence. }
    assert (Hstep :
      (match List.find (fun e => mrb_eqb (fst e) key) kv with
       | Some e => Returns (inl (snd e))
       | None => Returns (inl MrbNil)
       end : outcome (MrbValue + string))
      = Returns (inl (hash_value kv key))).
    { unfold hash_value. by destruct (List.find _ kv). }
    rewrite Hstep. clear Hstep.
    destruct (IH (S k)
                (upd_config
                   (fun c => set_Env
                      (Env c ++ [mrb_String key +:+ "="
                                 +:+ mrb_String (hash_value kv key)]) c) w)
                ltac:(lia))
      as (n & r & -> & Hn & Hall & Hfault & Hno).
    exists (S n), r. rewrite (drop_S _ _ _ Hkey). cbn [take map].
    rewrite upd_Env_app.
    split; [done|]. split; [lia|]. split; [intros Hr; by rewrite (Hall Hr)|].
    split; [|exact Hno].
    intros e Hr. replace (k + S n) with (S k + n) by lia. by apply Hfault.
Qed.

Lemma mrb_eqb_refl : forall v, mrb_eqb v v = true.
Proof.
  fix IH 1. intros [|s|i kv|i n|m|s]; cbn [mrb_eqb];
    rewrite ?String.eqb_refl, ?Nat.eqb_refl; try done.
  cbn [andb]. induction kv as [|[k v] kv IHkv]; [done|].
  by rewrite !IH, IHkv.
Qed.

Lemma find_app_none {A} (f : A -> bool) (l1 l2 : list A) :
  List.find f l1 = None -> List.find f (l1 ++ l2) = List.find f l2.
Proof.
  induction l1 as [|x l1 IH]; [done|]. cbn [List.find app].
  by destruct (f x).
Qed.

Lemma entries_distinct_aux pre kv :
  forallb (fun e => forallb (fun e' => negb (mrb_eqb (fst e) (fst e'))) kv) pre
    = true ->
  distinct_keys kv = true ->
  map (fun key => mrb_String key +:+ "=" +:+ mrb_String (hash_value (pre ++ kv) key))
    (map fst kv)
  = map (fun e => mrb_String (fst e) +:+ "=" +:+ mrb_String (snd e)) kv.
Proof.
  revert pre. induction kv as [|[k v] kv IH]; intros pre Hpre Hd; [done|].
  cbn [map fst snd]. cbn [distinct_keys fst] in Hd.
  apply andb_prop in Hd as [Hk Hd]. f_equal.
  - unfold hash_value.
    assert (Hnone : List.find (fun e => mrb_eqb (fst e) k) pre = None).
    { clear -Hpre. induction pre as [|p pre IHp]; [done|].
      cbn [forallb] in Hpre. apply andb_prop in Hpre as [Hp Hpre].
      apply andb_prop in Hp as [Hp _]. cbn [fst] in Hp.
      cbn [List.find]. apply negb_true_iff in Hp. rewrite Hp. auto. }
    rewrite (find_app_none _ _ _ Hnone). cbn [List.find fst].
    by rewrite mrb_eqb_refl.
  - replace (pre ++ (k, v) :: kv)%list with ((pre ++ [(k, v)]) ++ kv)%list
      by (by rewrite <- app_assoc).
    apply IH; [|done].
    rewrite forallb_app. cbn [forallb fst]. rewrite Hk. cbn [andb].
    rewrite andb_true_r.
    clear -Hpre. induction pre as [|p pre IHp]; [done|].
    cbn [forallb] in Hpre |- *. apply andb_prop in Hpre as [Hp Hpre].
    apply andb_prop in Hp as [_ Hp]. by rewrite Hp, IHp.
Qed.


(** X18: the hook of [run] succeeds exactly when the container could be
    attached to and started, copying its output ended without error or
    with [io.EOF], and it was waited for and exited with status 0.  Any
    other error of the copy is the hook's error: the hook returns it
    before the closing banner and without waiting for the container. *)
Theorem run_hook_succeeds_iff id w :
  ((run_hook C Quote id w).1 = None
   <-> exists resp,
         ContainerAttach C id = inl resp
         /\ ContainerStart C id = None
         /\ (copy_err resp = None \/ copy_err resp = Some io_EOF)
         /\ ContainerWait C id = inl 0%Z)
  /\ (forall resp msg,
        ContainerAttach C id = inl resp ->
        ContainerStart C id = None ->
        copy_err resp = Some (errorString msg) ->
        run_hook C Quote id w
        = (Some msg,
           print (output resp)
             (Println "------ BEGIN OUTPUT ------"
                (record (CallContainerStart id)
                   (record (CallContainerAttach id) w))))).
Proof.
  unfold run_hook. split; [split|].
  - destruct (ContainerAttach C id) as [resp|e]; [|done].
    destruct (ContainerStart C id) as [e|]; [done|].
    destruct (copy_err resp) as [[|msg]|] eqn:Hcopy; [|done|];
      (destruct (ContainerWait C id) as [stat|e]; [|done]);
      (destruct (Z.eqb_spec stat 0) as [->|Hne]; [|done]);
      intros _; exists resp; auto.
  - intros (resp & -> & -> & [Hcopy|Hcopy] & ->); by rewrite Hcopy.
  - intros resp msg -> -> ->. done.
Qed.

(** What a successful run of the hook leaves behind: the output between
    the two banners, and the three calls in order. *)
Lemma run_hook_success id w resp :
  ContainerAttach C id = inl resp ->
  (run_hook C Quote id w).1 = None ->
  stdout (run_hook C Quote id w).2
  = ("------ END OUTPUT ------" +:+ LF) :: output resp
    :: ("------ BEGIN OUTPUT ------" +:+ LF) :: stdout w
  /\ calls (run_hook C Quote id w).2
     = CallContainerWait id :: CallContainerStart id
       :: CallContainerAttach id :: calls w.
Proof.
  unfold run_hook. intros ->.
  destruct (ContainerStart C id) as [e|]; [done|].
  destruct (copy_err resp) as [[|msg]|]; [|done|];
    (destruct (ContainerWait C id) as [stat|e]; [|done]);
    by destruct (Z.eqb stat 0).
Qed.

(** X19: [cmd] and [entrypoint] only record the renderings of their
    arguments, in the builder and in the configuration: they request no
    commit, make no call and print nothing.  What they set is still the
    configuration's command, or entrypoint, after a later [run], however
    that run's commit ends. *)
Theorem cmd_entrypoint_survive_run args rargs w :
  let c := cmd args w in
  let e := entrypoint args w in
  (c.1 = Returns (None, None)
   /\ calls c.2 = calls w /\ stdout c.2 = stdout w
   /\ b_cmd (bld c.2) = map mrb_String args
   /\ imageID (bld c.2) = imageID (bld w)
   /\ Cmd (config (bld (run C commit Quote rargs c.2).2)) = map mrb_String args)
  /\ (e.1 = Returns (None, None)
      /\ calls e.2 = calls w /\ stdout e.2 = stdout w
      /\ b_entrypoint (bld e.2) = map mrb_String args
      /\ imageID (bld e.2) = imageID (bld w)
      /\ Entrypoint (config (bld (run C commit Quote rargs e.2).2))
         = map mrb_String args).
Proof.
  cbn zeta. split.
  - repeat split. unfold run.
    destruct (String.eqb (imageID (bld (cmd args w).2)) ""); [done|].
    destruct (call_commit _ _ _) as [[[?|]| |] w1]; done.
  - repeat split. unfold run.
    destruct (String.eqb (imageID (bld (entrypoint args w).2)) ""); [done|].
    destruct (call_commit _ _ _) as [[[?|]| |] w1]; done.
Qed.

(** [run] on a builder that has an image: one commit with the hook, on
    the overridden configuration, then the restoration. *)
Lemma run_with_image args w :
  imageID (bld w) <> "" ->
  let committed :=
    commit (Some (run_hook C Quote))
      (record (CallCommit true) (run_override (map mrb_String args) w)) in
  run C commit Quote args w
  = (commit_result committed.1,
     run_restore (Entrypoint (config (bld w))) (Cmd (config (bld w)))
       (WorkingDir (config (bld w))) committed.2).
Proof.
  intros Himg. cbn zeta. unfold run, call_commit.
  apply String.eqb_neq in Himg. rewrite Himg.
  change (bool_decide (is_Some (Some (run_hook C Quote)))) with true.
  by destruct (commit _ _) as [[[e|]| |] w1].
Qed.

(** X20: the guard of [run] sees only whether [from] was called with a
    reference that is not empty, not whether the pull succeeded: after
    any [from] with such a reference, also one whose pull failed, [run]
    goes on to its commit; after [from] with an empty reference it
    returns its diagnostic and commits nothing. *)
Theorem run_after_from a0 rest args w :
  let w1 := (from C Unmarshal (a0 :: rest) w).2 in
  let committed :=
    commit (Some (run_hook C Quote))
      (record (CallCommit true) (run_override (map mrb_String args) w1)) in
  (mrb_String a0 <> "" ->
     run C commit Quote args w1
     = (commit_result committed.1,
        run_restore (Entrypoint (config (bld w1))) (Cmd (config (bld w1)))
          (WorkingDir (config (bld w1))) committed.2))
  /\ (mrb_String a0 = "" ->
      run C commit Quote args w1
      = (Returns (Some (MrbString "`from` must precede any `run` statements"),
                  None), w1)).
Proof.
  cbn zeta.
  assert (Himg : imageID (bld (from C Unmarshal (a0 :: rest) w).2)
                 = mrb_String a0).
  { rewrite VerbsFacts.from_cons. cbn zeta.
    destruct (ImagePull C (mrb_String a0)) as [reader|e]; [|done].
    cbn [snd].
    match goal with |- context [read_progress Unmarshal ?ls ?fin ?w0] =>
      destruct (VerbsFacts.read_progress_frame Unmarshal ls fin w0)
        as (_ & -> & _) end.
    done. }
  split.
  - intros Hne. apply run_with_image. by rewrite Himg.
  - intros Hemp. unfold run. by rewrite Himg, Hemp.
Qed.

(** X21: on a builder that has an image, when the first thing the block
    of [with_user] does is a [run], that run commits with the block's
    user in the configuration; when the first thing the block of [inside]
    does is a [run], that run commits with the block's directory as
    working directory, or with the configured working directory when the
    block's directory is the empty string.  The rest of the block goes on
    from the restored entrypoint, command and working directory, and
    when the scoped verb returns the user, or the directory override, is
    empty. *)
Theorem run_in_scoped_block u blk rest rargs w
    (k : outcome verbResult * World -> (MrbValue + string) * World) :
  imageID (bld w) <> "" ->
  (forall w', Yield blk u w' = k (run C commit Quote rargs w')) ->
  let committing (entered : World) :=
    record (CallCommit true) (run_override (map mrb_String rargs) entered) in
  let after_run (during : World) :=
    (commit_result (commit (Some (run_hook C Quote)) during).1,
     run_restore (Entrypoint (config (bld w))) (Cmd (config (bld w)))
       (WorkingDir (config (bld w)))
       (commit (Some (run_hook C Quote)) during).2) in
  let in_user := committing (upd_config (set_User (mrb_String u)) w) in
  let in_dir :=
    committing (with_bld (set_insideDir (mrb_String u) (bld w)) w) in
  (User (config (bld in_user)) = mrb_String u
   /\ (withUser Yield (u :: blk :: rest) w).2
      = upd_config (set_User "") (k (after_run in_user)).2)
  /\ (WorkingDir (config (bld in_dir))
      = (if String.eqb (mrb_String u) "" then WorkingDir (config (bld w))
         else mrb_String u)
      /\ (inside Yield (u :: blk :: rest) w).2
         = with_bld (set_insideDir "" (bld (k (after_run in_dir)).2))
             (k (after_run in_dir)).2).
Proof.
  intros Himg Hyield. cbn zeta. split.
  - split.
    + unfold run_override. cbn [bld upd_config with_bld set_config insideDir].
      by destruct (String.eqb (insideDir (bld w)) "").
    + unfold withUser. rewrite Hyield.
      rewrite run_with_image by done. cbn zeta.
      by destruct (k _) as [[v|e] w1].
  - split.
    + unfold run_override.
      cbn [bld upd_config with_bld set_config set_insideDir insideDir].
      by destruct (String.eqb (mrb_String u) "").
    + unfold inside. rewrite Hyield.
      rewrite run_with_image by done. cbn zeta.
      by destruct (k _) as [[v|e] w1].
Qed.

End Verbs.

(** [with_user "root"] around a block that runs a command. *)
Lemma run_in_scoped_block_example :
  let w := (from onlineClient demoUnmarshal [MrbString "alpine"] (demoWorld "")).2 in
  User (config (bld (withUser runBlockYield
                       [MrbString "root"; MrbProc "block" 0] w).2)) = ""
  /\ calls (withUser runBlockYield [MrbString "root"; MrbProc "block" 0] w).2
     = [CallCommit true; CallImagePull "alpine"].
Proof.
  cbv zeta.
  destruct (run_in_scoped_block onlineClient demoCommit runBlockYield demoQuote
              (MrbString "root") (MrbProc "block" 0) [] [MrbString "id"]
              (from onlineClient demoUnmarshal [MrbString "alpine"]
                 (demoWorld "")).2
              (fun out => (inl MrbNil, out.2)))
    as [[_ Hw] _]; [by vm_compute | done |].
  by rewrite Hw.
Defined.


(** A pull of two progress records. *)
Lemma from_prints_progress_example :
  let out := from onlineClient demoUnmarshal [MrbString "alpine"] (demoWorld "") in
  stdout out.2 = ["  " +:+ CR; "  " +:+ CR]
  /\ out.1 = Returns (Some (MrbString "alpine"), None).
Proof.
  exact (from_prints_progress onlineClient demoUnmarshal (MrbString "alpine") []
           (demoWorld "") {| lines := ["{pulling}"; "{done}"]; read_err := None |}
           eq_refl).
Defined.

End VerbsMore.

(** ** The cache key against the specification *)

Module CacheKeyFacts.
Import Core.

(** The encoder's table is the alphabet of RFC 4648. *)
Lemma encode_alphabet d :
  (d < 64)%N -> base64.encode d = CacheKeySpec.alphabet d.
Proof.
  intros Hd. destruct d as [|p]; [reflexivity|].
  do 6 (destruct p as [p|p|]; try reflexivity); lia.
Qed.

Lemma digit_lt v k : (CacheKeySpec.digit v k < 64)%N.
Proof. unfold CacheKeySpec.digit. by apply N.mod_lt. Qed.

Lemma octets_lt s : Forall (fun a => (a < 256)%N) (CacheKeySpec.octets s).
Proof.
  unfold CacheKeySpec.octets.
  induction s as [|c s IH]; cbn [list_ascii_of_string map]; constructor; [|done].
  apply N_ascii_bounded.
Qed.

(** On octets, the encoder of the code computes the encoding of
    RFC 4648. *)
Lemma Encode_base64 src :
  Forall (fun a => (a < 256)%N) src ->
  base64.Encode src = CacheKeySpec.base64 src.
Proof.
  assert (H : forall n (l : list N), length l <= n ->
                Forall (fun a => (a < 256)%N) l ->
                base64.Encode l = CacheKeySpec.base64 l).
  { induction n as [|n IH]; intros [|a [|b [|c rest]]] Hl Hb; try done;
      cbn [length] in Hl; try lia.
    - apply Forall_cons in Hb as [Ha _].
      destruct (KeyFacts.Encode_one a Ha) as [-> _].
      cbn [CacheKeySpec.base64]. cbv zeta. unfold CacheKeySpec.digit.
      replace (a * 256 * 256)%N with (a * 65536)%N by lia.
      change (64 ^ 3)%N with 262144%N. change (64 ^ 2)%N with 4096%N.
      rewrite !encode_alphabet by (by apply N.mod_lt). done.
    - apply Forall_cons in Hb as [Ha Hb]. apply Forall_cons in Hb as [Hb _].
      destruct (KeyFacts.Encode_two a b Ha Hb) as [-> _].
      cbn [CacheKeySpec.base64]. cbv zeta. unfold CacheKeySpec.digit.
      replace ((a * 256 + b) * 256)%N with (a * 65536 + b * 256)%N by lia.
      change (64 ^ 3)%N with 262144%N. change (64 ^ 2)%N with 4096%N.
      change (64 ^ 1)%N with 64%N.
      rewrite !encode_alphabet by (by apply N.mod_lt). done.
    - apply Forall_cons in Hb as [Ha Hb]. apply Forall_cons in Hb as [Hb Hc].
      apply Forall_cons in Hc as [Hc Hrest].
      rewrite (KeyFacts.Encode_group a b c rest Ha Hb Hc). cbv zeta.
      cbn [CacheKeySpec.base64]. cbv zeta. unfold CacheKeySpec.digit.
      replace ((a * 256 + b) * 256 + c)%N with (a * 65536 + b * 256 + c)%N by lia.
      change (64 ^ 3)%N with 262144%N. change (64 ^ 2)%N with 4096%N.
      change (64 ^ 1)%N with 64%N. change (64 ^ 0)%N with 1%N.
      rewrite N.div_1_r.
      rewrite !encode_alphabet by (by apply N.mod_lt).
      rewrite (IH rest) by (done || lia). done. }
  by apply (H (length src)).
Qed.

(** The key the wrapper computes is the fingerprint of the
    specification. *)
Lemma fingerprint_spec name args :
  fingerprint name args = CacheKeySpec.fingerprint name args.
Proof.
  unfold fingerprint, CacheKeySpec.fingerprint, base64.EncodeToString.
  rewrite Join_concat.
  change (base64.bytes ?s) with (CacheKeySpec.octets s).
  by rewrite Encode_base64 by apply octets_lt.
Qed.

(** The encoding of the specification on the test vectors of RFC 4648,
    section 10. *)
Example rfc4648_vectors :
  map (fun s => string_of_list_ascii (CacheKeySpec.base64 (CacheKeySpec.octets s)))
    [""; "f"; "fo"; "foo"; "foob"; "fooba"; "foobar"]
  = [""; "Zg=="; "Zm8="; "Zm9v"; "Zm9vYg=="; "Zm9vYmE="; "Zm9vYmFy"].
Proof. reflexivity. Qed.

Example fingerprint_copy :
  CacheKeySpec.fingerprint "copy" [MrbString "a"; MrbString "b"]
  = "Y29weSwgYSwgYg==".
Proof. reflexivity. Qed.

Section Wrapper.
Context {St : Type} (E : Executor St) (Getenv : string -> string).

(** C1: whenever the step wrapper probes the cache or invokes the
    handler, the key it uses is the standard base 64 encoding, as
    RFC 4648 defines it, of the verb's name and the string renderings of
    its arguments joined with a comma and a space between each two, and
    decoding the key gives that joined string back.  The key depends on
    the name and the renderings alone: a call with the same name and
    arguments of the same renderings, on any builder and with any
    handler, uses the same key. *)
Theorem wrapVerbFunc_cacheKey_base64 name vd args (w : World St) :
  let joined := String.concat ", " (name :: map mrb_String args) in
  let key := string_of_list_ascii
               (CacheKeySpec.base64 (CacheKeySpec.octets joined)) in
  let keyed (w0 w' : World St) :=
    (forall k, EvCheckCache k ∈ trace w' -> EvCheckCache k ∈ trace w0 \/ k = key)
    /\ (forall n k, EvVerbFunc n k ∈ trace w' ->
          EvVerbFunc n k ∈ trace w0 \/ n = name /\ k = key) in
  (ctx_Done (Context_ (config (bld w))) = false ->
     EvCheckCache key ∈ trace (wrapVerbFunc E Getenv name vd args w).2)
  /\ keyed w (wrapVerbFunc E Getenv name vd args w).2
  /\ base64_decode.Decode (list_ascii_of_string key)
     = Some (CacheKeySpec.octets joined)
  /\ (forall vd' args' (w0 : World St),
        map mrb_String args' = map mrb_String args ->
        keyed w0 (wrapVerbFunc E Getenv name vd' args' w0).2).
Proof.
  cbn zeta.
  change (string_of_list_ascii
            (CacheKeySpec.base64
               (CacheKeySpec.octets
                  (String.concat ", " (name :: map mrb_String args)))))
    with (CacheKeySpec.fingerprint name args).
  rewrite <- fingerprint_spec.
  destruct (CoreFacts.wrapVerbFunc_key_events E Getenv name vd args w)
    as (Hprobe & Hcheck & Hverb & _ & Hdet).
  split; [exact Hprobe|]. split; [by split|]. split.
  - rewrite fingerprint_spec. unfold CacheKeySpec.fingerprint.
    rewrite list_ascii_of_string_of_list_ascii.
    rewrite <- Encode_base64 by apply octets_lt.
    apply KeyFacts.Decode_Encode, octets_lt.
  - intros vd' args' w0 Heq.
    destruct (CoreFacts.wrapVerbFunc_key_events E Getenv name vd' args' w0)
      as (_ & Hcheck' & Hverb' & _ & _).
    rewrite (Hdet args' Heq) in Hcheck', Hverb'. by split.
Qed.

End Wrapper.

End CacheKeyFacts.
